(** * CV parsing and semantic matching: the hybrid ranking engine

    A shallow embedding of [src/hybrid_matcher.py], [src/semantic_matcher.py]
    and the embedding table of [src/db_manager.py]; and, for the further
    properties, of the skill and education extractors of [src/parser.py], of
    [CVDatabase.insert_candidate], of the pipeline of [src/main.py] and of
    [process_single_cv] of [src/app-demo.py].

    Conventions of the model:
    - a Python [str] is a Rocq [string] of 7-bit ASCII characters; [str.lower]
      and the regular-expression classes [\b], [\w] and [[a-z]] are the ASCII
      ones (beyond ASCII they need the Unicode tables);
    - a Python [float] score or weight is the exact rational it stands for
      ([Q], compared with [==]); rounding to binary64 is not modelled, but
      for the one place where it decides what the code does, the weight test
      of [hybrid_rank], which is also given as binary64 computes it
      ([hybrid_rank_binary64]);
    - a Python [set] of strings is a [gset string]; a [dict] whose iteration
      order is observed is an insertion-ordered association list;
    - the sentence encoder and scikit-learn's cosine are libraries outside
      the repository: the rankers take them as parameters; the cosine itself
      needs square roots and is given over the reals in [Cosine];
    - a table of SQLite is the list of its rows in rowid order; the rowid
      that AUTOINCREMENT gives a new row is a parameter of the model, and the
      properties assume of it only that it lies above every rowid of the
      table; the extractors of the parser that rest on spaCy and on other
      regular expressions are parameters as well. *)

From Stdlib Require Import Ascii String QArith Qabs Reals Qreals Psatz.
From Stdlib Require PrimFloat FloatOps SpecFloat.
From stdpp Require Import base gmap strings list sorting.

Open Scope Q_scope.

(** ** Characters and the regular expression of the keyword extractor *)

Module Text.

Definition code (c : ascii) : N := N_of_ascii c.

Definition in_range (lo hi : N) (c : ascii) : bool :=
  ((lo <=? code c) && (code c <=? hi))%N.

(** [[a-z]], [[A-Z]], [[0-9]] *)
Definition is_lower : ascii → bool := in_range 97 122.
Definition is_upper : ascii → bool := in_range 65 90.
Definition is_digit : ascii → bool := in_range 48 57.

(** An alphabetic character, in the words of the specification. *)
Definition is_alpha (c : ascii) : bool := is_lower c || is_upper c.

(** [\w]: a letter, a digit or the underscore. *)
Definition is_word (c : ascii) : bool :=
  is_alpha c || is_digit c || (code c =? 95)%N.

(** [str.lower], one character. *)
Definition lower_char (c : ascii) : ascii :=
  if is_upper c then ascii_of_N (code c + 32) else c.

(** [text.lower()] *)
Definition lower (s : list ascii) : list ascii := lower_char <$> s.

(** The character on one side of a position; [None] at either end of the
    text, which counts as a non-word character. *)
Definition word_side (o : option ascii) : bool :=
  match o with Some c => is_word c | None => false end.

(** [\b]: exactly one of the two neighbours is a word character. *)
Definition word_boundary (prev next : option ascii) : bool :=
  xorb (word_side prev) (word_side next).

(** The greedy run of [[a-z]] at the head of [s]. *)
Fixpoint lower_run (s : list ascii) : list ascii :=
  match s with
  | c :: s' => if is_lower c then c :: lower_run s' else []
  | [] => []
  end.

(** Does [\b] hold after the first [j] characters of [s]? *)
Definition ends_at_boundary (s : list ascii) (j : nat) : bool :=
  word_boundary (s !! pred j) (s !! j).

(** [[a-z]{3,}\b] with backtracking: the quantifier first takes [j]
    characters, then gives them back one by one, never going below 3,
    until [\b] holds behind it. *)
Fixpoint backtrack (s : list ascii) (j : nat) : option nat :=
  match j with
  | O => None
  | S j' =>
      if (S j' <? 3)%nat then None
      else if ends_at_boundary s (S j') then Some (S j')
      else backtrack s j'
  end.

(** One attempt of [\b[a-z]{3,}\b] at the head of [s], [prev] being the
    character before it. *)
Definition match_at (prev : option ascii) (s : list ascii)
  : option (list ascii) :=
  if word_boundary prev (head s)
  then (λ j, take j s) <$> backtrack s (length (lower_run s))
  else None.

(** [re.findall]: the matches from left to right, none overlapping.  After
    a match the search resumes behind it: [skip] counts the characters of
    the last match still to be passed over. *)
Fixpoint scan (skip : nat) (prev : option ascii) (s : list ascii)
  : list (list ascii) :=
  match s with
  | [] => []
  | c :: s' =>
      match skip with
      | S k => scan k (Some c) s'
      | O =>
          match match_at prev s with
          | Some tok => tok :: scan (pred (length tok)) (Some c) s'
          | None => scan 0 (Some c) s'
          end
      end
  end.

(** [re.findall(r'\b[a-z]{3,}\b', s)] *)
Definition findall (s : list ascii) : list (list ascii) := scan 0 None s.

End Text.

(** ** [HybridMatcher]: the keyword engine *)

(** [HybridMatcher.extract_keywords] *)
Definition extract_keywords (text : string) : gset string :=
  let text_lower := Text.lower (list_ascii_of_string text) in
  list_to_set (string_of_list_ascii <$> Text.findall text_lower).

(** [HybridMatcher.keyword_matching_score]; [len] of a set is [size], and
    the quotient of the two integers is the rational [intersection / union]. *)
Definition keyword_matching_score (cv_text job_description : string) : Q :=
  let cv_keywords := extract_keywords cv_text in
  let job_keywords := extract_keywords job_description in
  if decide (job_keywords = ∅) then 0
  else
    let intersection := size (cv_keywords ∩ job_keywords) in
    let union := size (cv_keywords ∪ job_keywords) in
    if (0 <? union)%nat
    then inject_Z (Z.of_nat intersection) / inject_Z (Z.of_nat union)
    else 0.

(** ** Python values and effects *)

(** An insertion-ordered [dict]: at most one entry per key; writing an
    existing key keeps its place. *)
Section dict.
Context {K V : Type} `{EqDecision K}.

(** [d[k] = v] *)
Fixpoint dict_set (k : K) (v : V) (d : list (K * V)) : list (K * V) :=
  match d with
  | [] => [(k, v)]
  | (k', v') :: d' =>
      if decide (k = k') then (k, v) :: d' else (k', v') :: dict_set k v d'
  end.

(** [d[k]], [None] where Python has no entry ([k in d] is false). *)
Fixpoint dict_get (k : K) (d : list (K * V)) : option V :=
  match d with
  | [] => None
  | (k', v') :: d' => if decide (k = k') then Some v' else dict_get k d'
  end.

(** [{k: v for k, v in items}] *)
Definition dict_of_items (items : list (K * V)) : list (K * V) :=
  foldl (λ d kv, dict_set kv.1 kv.2 d) [] items.
End dict.

(** [list.sort(key=key, reverse=True)].  Python's sort is stable and stays
    so under [reverse=True]: items with equal keys keep their order.  The
    model is the insertion sort with that behaviour. *)
Section sort.
Context {A : Type} (key : A → Q).

Fixpoint insert_reverse (x : A) (l : list A) : list A :=
  match l with
  | [] => [x]
  | y :: l' =>
      if Qlt_le_dec (key x) (key y) then y :: insert_reverse x l' else x :: l
  end.

Definition sort_reverse (l : list A) : list A := foldr insert_reverse [] l.
End sort.

(** Both rankers raise [ValueError]; the specification names the two
    messages [InvalidWeightsError] and [NoEmbeddingsError]. *)
Inductive exn : Type :=
| ValueError (msg : string).

Definition InvalidWeightsError : exn := ValueError "Weights must sum to 1.0".

Definition NoEmbeddingsError : exn :=
  ValueError
    ("No embeddings found! Run precompute_all_embeddings() first."
     +:+ String (ascii_of_nat 10) "Usage: matcher.precompute_all_embeddings()").

(** What a run does besides computing: the calls that leave the process. *)
Inductive event : Type :=
| Encode (text : string)             (* [self.model.encode(text)] *)
| ReadEmbeddingsFile                 (* [os.path.exists] and [np.load] *)
| WriteEmbeddingsFile                (* [np.savez_compressed], [json.dump] *)
| SelectCandidates                   (* [SELECT id, full_text FROM ...] *)
| SelectNames                        (* [SELECT id, name FROM candidates] *)
| SelectFullText (candidate_id : Z). (* [SELECT full_text ... WHERE id = ?] *)

(** A computation: the events it performed, in order, and either the
    exception that ended it or its value. *)
Definition M (A : Type) : Type := list event * (exn + A).

Definition ret {A} (a : A) : M A := ([], inr a).

Definition raise {A} (e : exn) : M A := ([], inl e).

Definition perform {A} (ev : event) (a : A) : M A := ([ev], inr a).

Definition bind {A B} (m : M A) (k : A → M B) : M B :=
  match m with
  | (t, inl e) => (t, inl e)
  | (t, inr a) => let '(t', r) := k a in (t ++ t', r)
  end.

Declare Scope py_scope.
Delimit Scope py_scope with py.
Notation "'do' x <- m ; k" := (bind m (λ x, k))
  (at level 10, x binder, m at level 100, k at level 200) : py_scope.
Notation "'do' ' p <- m ; k" := (bind m (λ x, match x with p => k end))
  (at level 10, p pattern, m at level 100, k at level 200) : py_scope.

(** ** [SemanticMatcher], [HybridMatcher] and the embedding table *)

(** [SemanticMatcher.compute_similarity]: the one entry of the 1 x 1 matrix
    that [cosine_similarity] returns for the two reshaped rows. *)
Definition compute_similarity {Vec Score : Type}
    (cosine_similarity : Vec → Vec → Score) (embedding1 embedding2 : Vec)
  : Score :=
  cosine_similarity embedding1 embedding2.

Section Ranking.
Open Scope py_scope.

(** An embedding vector (a NumPy array). *)
Variable Vec : Type.
(** [SentenceTransformer.encode], the pretrained sentence encoder. *)
Variable encode : string → Vec.
(** [sklearn.metrics.pairwise.cosine_similarity] of two single rows. *)
Variable cosine_similarity : Vec → Vec → Q.

(** What persists between calls: the two tables of [cv_database.db] that
    the matchers and [store_embedding] touch, and the two files under
    [embeddings_dir].

    [candidates] holds the rows (id, name, full_text) in rowid order, with
    the text that [insert_candidate] wrote (not NULL);
    [cv_embeddings] is keyed by its UNIQUE column [candidate_id] and holds
    (embedding_vector, model_name); a file that does not exist is [None].
    The archive names each array [str(candidate_id)] and [load_embeddings]
    reads the name back with [int]: the model keeps the integer. *)
Record world : Type := World {
  candidates : list (Z * string * string);
  cv_embeddings : gmap Z (Vec * string);
  embeddings_file : option (list (Z * Vec));
  metadata_file : option (list (Z * string));
}.

(** [CVDatabase.store_embedding]: [INSERT OR REPLACE INTO cv_embeddings]. *)
Definition store_embedding
    (candidate_id : Z) (embedding_vector : Vec) (model_name : string)
    (w : world) : world :=
  World (candidates w)
        (<[candidate_id := (embedding_vector, model_name)]> (cv_embeddings w))
        (embeddings_file w)
        (metadata_file w).

(** [SemanticMatcher.generate_embedding] *)
Definition generate_embedding (text : string) : M Vec :=
  perform (Encode text) (encode text).

(** [SemanticMatcher.load_embeddings] *)
Definition load_embeddings (w : world) : M (list (Z * Vec)) :=
  perform ReadEmbeddingsFile
    match embeddings_file w with
    | None => []
    | Some data => dict_of_items data
    end.

(** The loop of [precompute_all_embeddings] over the fetched rows. *)
Fixpoint precompute_loop (rows : list (Z * string))
    (embeddings_dict : list (Z * Vec)) (metadata : list (Z * string))
    (model_name : string) : M (list (Z * Vec) * list (Z * string)) :=
  match rows with
  | [] => ret (embeddings_dict, metadata)
  | (candidate_id, full_text) :: rows' =>
      do embedding <- generate_embedding full_text;
      precompute_loop rows'
        (dict_set candidate_id embedding embeddings_dict)
        (dict_set candidate_id model_name metadata)
        model_name
  end.

(** [SemanticMatcher.precompute_all_embeddings] *)
Definition precompute_all_embeddings (model_name : string) (w : world)
  : M world :=
  do rows <- perform SelectCandidates
               ((λ r, (r.1.1, r.2)) <$> candidates w);
  match rows with
  | [] => ret w
  | _ =>
      do '(embeddings_dict, metadata) <-
           precompute_loop rows [] [] model_name;
      perform WriteEmbeddingsFile
        (World (candidates w) (cv_embeddings w)
               (Some embeddings_dict) (Some metadata))
  end.

(** The scoring loop of [rank_candidates] over [embeddings.items()]. *)
Fixpoint score_loop (job_embedding : Vec) (names : list (Z * string))
    (items : list (Z * Vec)) : list (Z * string * Q) :=
  match items with
  | [] => []
  | (candidate_id, cv_embedding) :: items' =>
      match dict_get candidate_id names with
      | Some name =>
          (candidate_id, name,
           compute_similarity cosine_similarity job_embedding cv_embedding)
            :: score_loop job_embedding names items'
      | None => score_loop job_embedding names items'
      end
  end.

(** [SemanticMatcher.rank_candidates] *)
Definition rank_candidates (w : world) (job_description : string)
  : M (list (Z * string * Q)) :=
  do job_embedding <- generate_embedding job_description;
  do embeddings <- load_embeddings w;
  match embeddings with
  | [] => raise NoEmbeddingsError
  | _ =>
      do names <- perform SelectNames
                    (dict_of_items ((λ r, (r.1.1, r.1.2)) <$> candidates w));
      let results := score_loop job_embedding names embeddings in
      ret (sort_reverse (λ x, x.2) results)
  end.

(** [cursor.fetchone()] after [SELECT full_text FROM candidates WHERE id = ?] *)
Definition select_full_text (w : world) (candidate_id : Z)
  : M (option string) :=
  perform (SelectFullText candidate_id)
    ((λ r, r.2) <$> find (λ r, bool_decide (r.1.1 = candidate_id))
                      (candidates w)).

(** [combined_score] of one candidate. *)
Definition combined_score
    (semantic_weight keyword_weight semantic_score keyword_score : Q) : Q :=
  semantic_weight * semantic_score + keyword_weight * keyword_score.

(** The loop of [hybrid_rank] over [semantic_results]. *)
Fixpoint hybrid_loop (w : world) (job_description : string)
    (semantic_weight keyword_weight : Q)
    (semantic_results : list (Z * string * Q))
  : M (list (Z * string * Q * Q * Q)) :=
  match semantic_results with
  | [] => ret []
  | (candidate_id, name, semantic_score) :: rest =>
      do result <- select_full_text w candidate_id;
      match result with
      | None =>
          hybrid_loop w job_description semantic_weight keyword_weight rest
      | Some cv_text =>
          let keyword_score :=
            keyword_matching_score cv_text job_description in
          let combined :=
            combined_score semantic_weight keyword_weight
                           semantic_score keyword_score in
          do hybrid_results <-
            hybrid_loop w job_description semantic_weight keyword_weight rest;
          ret ((candidate_id, name, semantic_score, keyword_score, combined)
                 :: hybrid_results)
      end
  end.

(** [HybridMatcher.hybrid_rank] *)
Definition hybrid_rank (w : world) (job_description : string)
    (semantic_weight keyword_weight : Q)
  : M (list (Z * string * Q * Q * Q)) :=
  let total_weight := semantic_weight + keyword_weight in
  if Qlt_le_dec 0.01 (Qabs (total_weight - 1.0))
  then raise InvalidWeightsError
  else
    do semantic_results <- rank_candidates w job_description;
    do hybrid_results <-
      hybrid_loop w job_description semantic_weight keyword_weight
                  semantic_results;
    ret (sort_reverse (λ x, x.2) hybrid_results).

End Ranking.

Arguments World {Vec}.
Arguments candidates {Vec}.
Arguments cv_embeddings {Vec}.
Arguments embeddings_file {Vec}.
Arguments metadata_file {Vec}.
Arguments store_embedding {Vec}.
Arguments generate_embedding {Vec}.
Arguments load_embeddings {Vec}.
Arguments precompute_loop {Vec}.
Arguments precompute_all_embeddings {Vec}.
Arguments score_loop {Vec}.
Arguments rank_candidates {Vec}.
Arguments select_full_text {Vec}.
Arguments hybrid_loop {Vec}.
Arguments hybrid_rank {Vec}.

(** ** The weight test in binary64 *)

(** The weights of [hybrid_rank] are Python floats and its first statement
    computes with them in binary64, rounding to nearest: next to the bound
    the test does not always come out as the exact test above does.  Here
    the test is the one the code computes. *)
Section Binary64.
Import PrimFloat.
Local Set Warnings "-inexact-float".
Open Scope py_scope.
Context {Vec : Type}.
Variable encode : string → Vec.
Variable cosine_similarity : Vec → Vec → Q.

(** The rational that a finite float is; 0 for an infinity and for a NaN,
    of which the model has no score to give. *)
Definition exact (x : float) : Q :=
  match FloatOps.Prim2SF x with
  | SpecFloat.S754_finite s m e =>
      inject_Z (if s then Z.neg m else Z.pos m) * Qpower 2 e
  | _ => 0
  end.

(** [HybridMatcher.hybrid_rank] on binary64 weights.  Behind the test the
    scores are the exact ones of the model, under the exact values of the
    weights. *)
Definition hybrid_rank_binary64 (w : world Vec) (job_description : string)
    (semantic_weight keyword_weight : float)
  : M (list (Z * string * Q * Q * Q)) :=
  let total_weight := (semantic_weight + keyword_weight)%float in
  if (0.01 <? abs (total_weight - 1.0))%float
  then raise InvalidWeightsError
  else
    do semantic_results <-
      rank_candidates encode cosine_similarity w job_description;
    do hybrid_results <-
      hybrid_loop w job_description (exact semantic_weight)
                  (exact keyword_weight) semantic_results;
    ret (sort_reverse (λ x, x.2) hybrid_results).

End Binary64.

(** ** The cosine of scikit-learn *)

(** [sklearn.metrics.pairwise.cosine_similarity] for two rows of non-zero
    norm: [dot(a, b) / (norm(a) * norm(b))], over the reals. *)
Module Cosine.
Local Open Scope R_scope.

Definition dot (a b : list R) : R := foldr Rplus 0 (zip_with Rmult a b).

Definition norm (a : list R) : R := sqrt (dot a a).

Definition cosine_similarity (a b : list R) : R :=
  dot a b / (norm a * norm b).
End Cosine.

(** ** Closed examples

    A stub encoder and stored vectors of norm 1 with rational coordinates:
    between such vectors the cosine is the dot product
    ([stub_cosine_is_cosine]). *)
Module Example.

(** The dot product, standing for the cosine. *)
Definition stub_cosine (a b : list Q) : Q :=
  foldr Qplus 0 (zip_with Qmult a b).

(** Every text is encoded as the first unit vector. *)
Definition stub_encode (text : string) : list Q := [1; 0].

(** The two rankers over the stubs. *)
Definition rank := rank_candidates stub_encode stub_cosine.

Definition hybrid := hybrid_rank stub_encode stub_cosine.

Definition model_name : string := "all-MiniLM-L6-v2".

Definition job : string := "Python developer".

(** Two candidates, both precomputed: the first matches the keywords of
    [job] and is orthogonal to it, the second is parallel to it and shares
    no keyword. *)
Definition two_candidates : world (list Q) :=
  World [(1%Z, "Ada", "python developer"); (2%Z, "Bob", "accountant")]
        ∅
        (Some [(1%Z, [0; 1]); (2%Z, [1; 0])])
        (Some [(1%Z, model_name); (2%Z, model_name)]).

(** The archive still holds candidate 3, deleted from the store since. *)
Definition stale_entry : world (list Q) :=
  World [(1%Z, "Ada", "python developer")]
        ∅
        (Some [(3%Z, [0; 1]); (1%Z, [1; 0])])
        (Some [(3%Z, model_name); (1%Z, model_name)]).

(** One candidate inserted, nothing precomputed yet. *)
Definition fresh : world (list Q) :=
  World [(1%Z, "Ada", "python developer")] ∅ None None.

(** A stored vector opposite to the query. *)
Definition opposite : world (list Q) :=
  World [(1%Z, "Ada", "python developer")]
        ∅
        (Some [(1%Z, [-1; 0])])
        (Some [(1%Z, model_name)]).

End Example.

(** [text.lower()] on a string. *)
Definition str_lower (text : string) : string :=
  string_of_list_ascii (Text.lower (list_ascii_of_string text)).

Module Sample.
(** No candidate and no file: a new installation. *)
Definition empty : world (list Q) := World [] ∅ None None.
End Sample.

(** ** Strings of the parser and of the candidate tables *)

Module Str.

(** [str.isspace] of an ASCII character: tab to carriage return, the four
    separators and the space. *)
Definition is_space (c : ascii) : bool :=
  Text.in_range 9 13 c || Text.in_range 28 32 c.

(** [str.lstrip()] *)
Fixpoint lstrip (s : list ascii) : list ascii :=
  match s with
  | c :: s' => if is_space c then lstrip s' else s
  | [] => []
  end.

(** [str.strip()] *)
Definition strip (s : list ascii) : list ascii :=
  rev (lstrip (rev (lstrip s))).

(** [str.split(sep)] for a separator of one character. *)
Fixpoint split (sep : ascii) (s : list ascii) : list (list ascii) :=
  match s with
  | [] => [[]]
  | c :: s' =>
      if decide (c = sep) then [] :: split sep s'
      else match split sep s' with
           | part :: parts => (c :: part) :: parts
           | [] => [[c]]
           end
  end.

(** [sep.join(parts)] *)
Fixpoint join (sep : list ascii) (parts : list (list ascii)) : list ascii :=
  match parts with
  | [] => []
  | part :: parts' =>
      match parts' with
      | [] => part
      | _ => part ++ sep ++ join sep parts'
      end
  end.

(** [p in s]: [p] occurs in [s]. *)
Fixpoint starts_with (s p : list ascii) : bool :=
  match p, s with
  | [], _ => true
  | c :: p', d :: s' => bool_decide (c = d) && starts_with s' p'
  | _ :: _, [] => false
  end.

Fixpoint contains (s p : list ascii) : bool :=
  starts_with s p
  || match s with
     | [] => false
     | _ :: s' => contains s' p
     end.

End Str.

Definition str_strip (s : string) : string :=
  string_of_list_ascii (Str.strip (list_ascii_of_string s)).

Definition str_split (sep : ascii) (s : string) : list string :=
  string_of_list_ascii <$> Str.split sep (list_ascii_of_string s).

Definition str_join (sep : string) (parts : list string) : string :=
  string_of_list_ascii
    (Str.join (list_ascii_of_string sep) (list_ascii_of_string <$> parts)).

Definition str_contains (s p : string) : bool :=
  Str.contains (list_ascii_of_string s) (list_ascii_of_string p).

(** ** [CVParser.extract_skills] *)

Definition skill_keywords : list string :=
  ["python"; "java"; "javascript"; "sql"; "machine learning";
   "data analysis"; "docker"; "kubernetes"; "aws"; "azure";
   "react"; "angular"; "node.js"; "tensorflow"; "pytorch";
   "git"; "agile"; "scrum"; "project management"; "c++"; "c#";
   "ruby"; "php"; "swift"; "kotlin"; "go"; "rust"; "scala";
   "tableau"; "power bi"; "excel"; "powerpoint"; "word";
   "jira"; "confluence"; "slack"; "teams"; "salesforce";
   "oracle"; "mongodb"; "postgresql"; "mysql"; "redis";
   "spark"; "hadoop"; "kafka"; "airflow"; "jenkins";
   "ci/cd"; "devops"; "linux"; "windows"; "macos";
   "rest api"; "graphql"; "microservices"; "html"; "css"]%string.

(** The list [found_skills] of [extract_skills]. *)
Definition found_skills (text : string) : list string :=
  let text_lower := str_lower text in
  filter (λ skill, str_contains text_lower skill = true) skill_keywords.

(** [CVParser.extract_skills] *)
Definition extract_skills (text : string) : string :=
  match found_skills text with
  | [] => "Not specified"
  | found => str_join ", " found
  end.

(** ** [CVParser.extract_education] *)

Definition education_keywords : list string :=
  ["Bachelor"; "Master"; "PhD"; "B.Sc"; "M.Sc"; "MBA";
   "University"; "College"; "Institute"; "Degree"]%string.

(** The test of the loop: some keyword, lower-cased, occurs in the
    lower-cased line. *)
Definition mentions_education (line : string) : bool :=
  existsb (λ keyword, str_contains (str_lower line) (str_lower keyword))
    education_keywords.

(** [l[start:stop]] for [0 <= start]. *)
Definition slice {A} (l : list A) (start stop : nat) : list A :=
  take (stop - start) (drop start l).

(** The loop of [extract_education], at line [i] with the lines from [i] on
    still to visit. *)
Fixpoint education_loop (lines : list string) (i : nat)
    (todo : list string) : list string :=
  match todo with
  | [] => []
  | line :: todo' =>
      (if mentions_education line
       then slice lines (Nat.max 0 (i - 1)) (Nat.min (length lines) (i + 3))
       else [])
      ++ education_loop lines (S i) todo'
  end.

(** [CVParser.extract_education] *)
Definition extract_education (text : string) : string :=
  let lines := str_split "010" text in
  match education_loop lines 0 lines with
  | [] => "Not found"
  | education_lines => str_join " " education_lines
  end.

(** ** [CVParser.parse_cv] *)

(** The dictionary that [parse_cv] returns; [cv_category] is [None] when
    the key is absent. *)
Record parsed_cv : Type := ParsedCV {
  cv_name : string;
  cv_email : option string;
  cv_phone : option string;
  cv_education : string;
  cv_skills : string;
  cv_experience_years : Z;
  cv_category : option string;
  cv_full_text : string;
}.

Section Parser.

(** The extractors that rest on spaCy and on regular expressions. *)
Variable extract_name : string → string.
Variable extract_email : string → option string.
Variable extract_phone : string → option string.
Variable extract_experience_years : string → Z.

(** [CVParser.parse_cv]; the key [category] is set for a category that is
    given and not empty. *)
Definition parse_cv (text : string) (category : option string) : parsed_cv :=
  ParsedCV (extract_name text) (extract_email text) (extract_phone text)
    (extract_education text) (extract_skills text)
    (extract_experience_years text)
    (match category with
     | Some c => if bool_decide (c = EmptyString) then None else Some c
     | None => None
     end)
    text.

End Parser.

(** ** [CVDatabase]: the candidate and skill tables *)

(** A row of [candidates] ([created_at] left out). *)
Record candidate : Type := Candidate {
  c_id : Z;
  c_name : string;
  c_email : option string;
  c_phone : option string;
  c_education : string;
  c_experience_years : Z;
  c_category : option string;
  c_full_text : string;
}.

(** The tables that [insert_candidate] writes, rows in rowid order, and for
    the two AUTOINCREMENT keys their counters in [sqlite_sequence]. *)
Record database : Type := Database {
  db_candidates : list candidate;
  db_candidates_seq : Z;
  db_skills : list (Z * string);
  db_skills_seq : Z;
  db_candidate_skills : list (Z * Z);
}.

(** An exception that [insert_candidate] does not catch. *)
Inductive escaped : Type :=
| OverflowError   (* Python int too large to convert to SQLite INTEGER *)
| TypeError.      (* [fetchone()[0]] on [None] *)

(** The integers that SQLite stores: 64 bits, signed. *)
Definition sqlite_integer (n : Z) : bool :=
  ((- 2 ^ 63 <=? n) && (n <? 2 ^ 63))%Z.

(** The columns [id], [name] and [full_text] of [candidates], which the
    matchers read. *)
Definition candidate_rows (db : database) : list (Z * string * string) :=
  (λ c, (c_id c, c_name c, c_full_text c)) <$> db_candidates db.

(** The files and the embedding table of [w] beside the candidates of
    [db]. *)
Definition on_tables {Vec : Type} (db : database) (w : world Vec)
  : world Vec :=
  World (candidate_rows db) (cv_embeddings w) (embeddings_file w)
    (metadata_file w).

Section Database.

(** AUTOINCREMENT: the rowid SQLite gives a new row, from the rowids of the
    table and its counter; and the counter after an INSERT OR IGNORE that
    inserted nothing. *)
Variable new_rowid : list Z → Z → Z.
Variable ignored_seq : list Z → Z → Z.

(** Would [email] break [email TEXT UNIQUE]?  NULL never does. *)
Definition email_taken (email : option string) (db : database) : bool :=
  match email with
  | Some e => bool_decide (Some e ∈ c_email <$> db_candidates db)
  | None => false
  end.

(** [INSERT INTO candidates (...) VALUES (...)], once the constraints hold. *)
Definition insert_row (parsed_cv : parsed_cv) (db : database)
  : Z * database :=
  let rowid := new_rowid (c_id <$> db_candidates db) (db_candidates_seq db) in
  (rowid,
   Database
     (db_candidates db ++
        [Candidate rowid (cv_name parsed_cv) (cv_email parsed_cv)
           (cv_phone parsed_cv) (cv_education parsed_cv)
           (cv_experience_years parsed_cv) (cv_category parsed_cv)
           (cv_full_text parsed_cv)])
     rowid (db_skills db) (db_skills_seq db) (db_candidate_skills db)).

(** [INSERT OR IGNORE INTO skills (skill_name) VALUES (?)] *)
Definition insert_or_ignore_skill (skill : string) (db : database)
  : database :=
  if bool_decide (skill ∈ (db_skills db).*2)
  then Database (db_candidates db) (db_candidates_seq db) (db_skills db)
         (ignored_seq (db_skills db).*1 (db_skills_seq db))
         (db_candidate_skills db)
  else
    let rowid := new_rowid (db_skills db).*1 (db_skills_seq db) in
    Database (db_candidates db) (db_candidates_seq db)
      (db_skills db ++ [(rowid, skill)]) rowid (db_candidate_skills db).

(** [SELECT id FROM skills WHERE skill_name = ?] and [fetchone()] *)
Definition select_skill_id (skill : string) (db : database) : option Z :=
  fst <$> find (λ r, bool_decide (r.2 = skill)) (db_skills db).

(** [INSERT OR IGNORE INTO candidate_skills (candidate_id, skill_id)] *)
Definition insert_or_ignore_link (candidate_id skill_id : Z) (db : database)
  : database :=
  if bool_decide ((candidate_id, skill_id) ∈ db_candidate_skills db) then db
  else Database (db_candidates db) (db_candidates_seq db) (db_skills db)
         (db_skills_seq db)
         (db_candidate_skills db ++ [(candidate_id, skill_id)]).

(** The loop of [insert_candidate] over [skills_list]; [fetchone()[0]]
    raises [TypeError] on [None]. *)
Fixpoint link_skills (candidate_id : Z) (skills_list : list string)
    (db : database) : escaped + database :=
  match skills_list with
  | [] => inr db
  | skill :: rest =>
      let db1 := insert_or_ignore_skill skill db in
      match select_skill_id skill db1 with
      | None => inl TypeError
      | Some skill_id =>
          link_skills candidate_id rest
            (insert_or_ignore_link candidate_id skill_id db1)
      end
  end.

(** [CVDatabase.insert_candidate]: the database it leaves, and the exception
    that escaped or the value returned.  Binding the parameters of the first
    INSERT fails on an integer beyond 64 bits.  The IntegrityError of a taken
    email is caught and [None] returned; the connection is then closed, as
    after any exception, without a commit, which leaves the database as it
    was. *)
Definition insert_candidate (parsed_cv : parsed_cv) (db : database)
  : database * (escaped + option Z) :=
  if negb (sqlite_integer (cv_experience_years parsed_cv))
  then (db, inl OverflowError)
  else if email_taken (cv_email parsed_cv) db then (db, inr None)
  else
    let '(candidate_id, db1) := insert_row parsed_cv db in
    let linked :=
      if bool_decide (cv_skills parsed_cv = EmptyString) then inr db1
      else
        let skills_list :=
          str_strip <$> str_split "," (cv_skills parsed_cv) in
        link_skills candidate_id skills_list db1 in
    match linked with
    | inl e => (db, inl e)
    | inr db2 => (db2, inr (Some candidate_id))
    end.

(** The loop of [pipeline_process_cvs] over the parsed CVs: an exception of
    [insert_candidate] ends it, the earlier inserts stay committed. *)
Fixpoint store_cvs (parsed_cvs : list parsed_cv) (db : database)
  : database * (escaped + ()) :=
  match parsed_cvs with
  | [] => (db, inr ())
  | cv :: rest =>
      match insert_candidate cv db with
      | (db', inl e) => (db', inl e)
      | (db', inr _) => store_cvs rest db'
      end
  end.

(** [pipeline_process_cvs], from the parsed CVs on: the candidates are
    stored, then the embeddings of the whole table are computed. *)
Definition pipeline_process_cvs {Vec : Type} (encode : string → Vec)
    (model_name : string) (parsed_cvs : list parsed_cv)
    (db : database) (w : world Vec)
  : database * (escaped + M (world Vec)) :=
  match store_cvs parsed_cvs db with
  | (db', inl e) => (db', inl e)
  | (db', inr _) =>
      (db', inr (precompute_all_embeddings encode model_name
                   (on_tables db' w)))
  end.

End Database.

(** ** [process_single_cv] of the demo *)

(** What [process_single_cv] reports in its message. *)
Inductive report : Type :=
| EnterText                       (* Please enter CV text. *)
| Processed (candidate_id : Z)    (* CV Processed Successfully! *)
| CouldNotInsert                  (* Error: Could not insert candidate ... *)
| ErrorProcessing (e : escaped).  (* Error processing CV: ... *)

Section Demo.
Variable new_rowid : list Z → Z → Z.
Variable ignored_seq : list Z → Z → Z.
Variable extract_name : string → string.
Variable extract_email : string → option string.
Variable extract_phone : string → option string.
Variable extract_experience_years : string → Z.
Context {Vec : Type}.
Variable encode : string → Vec.
Variable model_name : string.

(** [process_single_cv]: parse, insert and, for an id that is not 0, encode
    the text and store the vector in the table [cv_embeddings]. *)
Definition process_single_cv (cv_text : string) (db : database)
    (w : world Vec) : database * M (world Vec * report) :=
  if bool_decide (str_strip cv_text = EmptyString)
  then (db, ret (w, EnterText))
  else
    let parsed_data :=
      parse_cv extract_name extract_email extract_phone
        extract_experience_years cv_text None in
    match insert_candidate new_rowid ignored_seq parsed_data db with
    | (db', inl e) => (db', ret (on_tables db' w, ErrorProcessing e))
    | (db', inr None) => (db', ret (on_tables db' w, CouldNotInsert))
    | (db', inr (Some candidate_id)) =>
        if (candidate_id =? 0)%Z
        then (db', ret (on_tables db' w, CouldNotInsert))
        else
          (db',
           bind (generate_embedding encode cv_text) (λ embedding,
             ret (store_embedding candidate_id embedding model_name
                    (on_tables db' w),
                  Processed candidate_id)))
    end.

End Demo.

(** ** Vocabulary of the tables *)

(** The row that [insert_candidate] writes for a CV. *)
Definition candidate_row (candidate_id : Z) (parsed_cv : parsed_cv)
  : candidate :=
  Candidate candidate_id (cv_name parsed_cv) (cv_email parsed_cv)
    (cv_phone parsed_cv) (cv_education parsed_cv)
    (cv_experience_years parsed_cv) (cv_category parsed_cv)
    (cv_full_text parsed_cv).

(** The candidate is linked to a skill of that name. *)
Definition linked (db : database) (candidate_id : Z) (skill : string)
  : Prop :=
  ∃ skill_id,
    (candidate_id, skill_id) ∈ db_candidate_skills db ∧
    (skill_id, skill) ∈ db_skills db.

(** The keys of the schema, and the foreign keys of [candidate_skills],
    which SQLite does not enforce unless asked to. *)
Record consistent (db : database) : Prop := Consistent {
  ids_distinct : NoDup (c_id <$> db_candidates db);
  emails_distinct : NoDup (omap c_email (db_candidates db));
  skill_ids_distinct : NoDup (db_skills db).*1;
  skill_names_distinct : NoDup (db_skills db).*2;
  links_distinct : NoDup (db_candidate_skills db);
  links_refer : ∀ candidate_id skill_id,
    (candidate_id, skill_id) ∈ db_candidate_skills db →
    candidate_id ∈ c_id <$> db_candidates db ∧
    skill_id ∈ (db_skills db).*1;
}.

(** ** An example of tables *)

Module SampleDb.

(** The rowids of SQLite: one above the largest id and the counter; an
    INSERT that was ignored has taken its rowid all the same, and the
    counter keeps it. *)
Definition new_rowid (ids : list Z) (seq : Z) : Z :=
  (1 + foldr Z.max seq ids)%Z.
Definition ignored_seq (ids : list Z) (seq : Z) : Z := new_rowid ids seq.

Definition insert := insert_candidate new_rowid ignored_seq.

(** The tables after [create_tables]. *)
Definition created : database := Database [] 0 [] 0 [].

Definition ada : parsed_cv :=
  ParsedCV "Ada" (Some "ada@example.org"%string) None "Not found"
    "python, sql" 5 (Some "IT"%string) "Ada, 5 years of Python and SQL".

(** No email, and the skills of Ada in another order. *)
Definition bob : parsed_cv :=
  ParsedCV "Bob" None None "Not found" "sql,python , docker" 0 None
    "Bob: SQL, Python, Docker".

(** The email of Ada under another name. *)
Definition eve : parsed_cv :=
  ParsedCV "Eve" (Some "ada@example.org"%string) None "Not found"
    "Not specified" 2 None "Eve".

(** The tables with Ada in them. *)
Definition with_ada : database :=
  Database
    [Candidate 1 "Ada" (Some "ada@example.org"%string) None "Not found" 5
       (Some "IT"%string) "Ada, 5 years of Python and SQL"]
    1 [(1%Z, "python"%string); (2%Z, "sql"%string)] 2
    [(1%Z, 1%Z); (1%Z, 2%Z)].

(** A parser whose other extractors find nothing. *)
Definition parse : string → option string → parsed_cv :=
  parse_cv (λ _, "Unknown"%string) (λ _, None) (λ _, None) (λ _, 0%Z).

(** The demo over that parser and the stub encoder. *)
Definition process :=
  process_single_cv new_rowid ignored_seq (λ _, "Unknown"%string)
    (λ _, None) (λ _, None) (λ _, 0%Z)
    Example.stub_encode Example.model_name.

End SampleDb.

(** * Vocabulary of the properties *)

#[local] Instance Qeq_decision (x y : Q) : Decision (x == y) := Qeq_dec x y.

(** Non-increasing keys, from the front of the list to its end. *)
Definition descending {A} (key : A → Q) : list A → Prop :=
  StronglySorted (λ x y, key y <= key x).

(** The items whose key is [q], in the order of the list. *)
Definition tied {A} (key : A → Q) (q : Q) (l : list A) : list A :=
  filter (λ x, key x == q) l.

(** [t] occurs in [s] as a run of three or more [letter]s with no [glue]
    character next to it on either side. *)
Definition run_in (letter glue : ascii → bool) (s t : list ascii) : Prop :=
  ∃ pre post,
    s = pre ++ t ++ post ∧ (3 ≤ length t)%nat ∧
    Forall (λ c, letter c = true) t ∧
    from_option glue false (last pre) = false ∧
    from_option glue false (head post) = false.

(** The character before position [length pre] of a text, [prev] being the
    one before the text. *)
Definition before (prev : option ascii) (pre : list ascii) : option ascii :=
  match last pre with Some c => Some c | None => prev end.

(** The tokens in the specification's words: the maximal runs of three or
    more alphabetic characters of the lower-cased text. *)
Definition maximal_alpha_run (text t : string) : Prop :=
  run_in Text.is_alpha Text.is_alpha
         (Text.lower (list_ascii_of_string text)) (list_ascii_of_string t).

(** The tokens of the regular expression: the runs of three or more of
    [[a-z]] of the lower-cased text that a word character (letter, digit,
    underscore) touches on neither side. *)
Definition whole_word_run (text t : string) : Prop :=
  run_in Text.is_lower Text.is_word
         (Text.lower (list_ascii_of_string text)) (list_ascii_of_string t).

(** Jaccard similarity of two token sets with a non-empty union. *)
Definition jaccard (X Y : gset string) : Q :=
  inject_Z (Z.of_nat (size (X ∩ Y))) / inject_Z (Z.of_nat (size (X ∪ Y))).

(** The mapping that [load_embeddings] returns. *)
Definition loaded {Vec} (w : world Vec) : list (Z * Vec) :=
  match (load_embeddings w).2 with inr d => d | inl _ => [] end.

(** The ids of the candidate store. *)
Definition candidate_ids {Vec} (w : world Vec) : list Z :=
  (λ r, r.1.1) <$> candidates w.

(** The names that [rank_candidates] fetches: its [candidates] dict. *)
Definition names {Vec} (w : world Vec) : list (Z * string) :=
  dict_of_items ((λ r, (r.1.1, r.1.2)) <$> candidates w).

(** The name the candidate store has for an id. *)
Definition name_of {Vec} (w : world Vec) (candidate_id : Z) : option string :=
  dict_get candidate_id (names w).

(** The full text the candidate store has for an id. *)
Definition full_text_of {Vec} (w : world Vec) (candidate_id : Z)
  : option string :=
  (λ r, r.2) <$> find (λ r, bool_decide (r.1.1 = candidate_id)) (candidates w).

(** The semantic tuple inside a hybrid tuple. *)
Definition semantic_part (x : Z * string * Q * Q * Q) : Z * string * Q :=
  x.1.1.

(** The score tuple of one stored pair. *)
Definition score_of {Vec} (encode : string → Vec)
    (cosine_similarity : Vec → Vec → Q) (w : world Vec)
    (job_description : string) (item : Z * Vec) : Z * string * Q :=
  (item.1, default EmptyString (name_of w item.1),
   compute_similarity cosine_similarity (encode job_description) item.2).

(** The hybrid tuple of one semantic result, if the store has its text. *)
Definition hybrid_tuple {Vec} (w : world Vec) (job_description : string)
    (semantic_weight keyword_weight : Q) (x : Z * string * Q)
  : option (Z * string * Q * Q * Q) :=
  (λ cv_text,
     let keyword_score := keyword_matching_score cv_text job_description in
     (x.1.1, x.1.2, x.2, keyword_score,
      combined_score semantic_weight keyword_weight x.2 keyword_score))
  <$> full_text_of w x.1.1.

(** The value of a computation that did not raise. *)
Definition value {A} (m : M (list A)) : list A :=
  match m.2 with inr a => a | inl _ => [] end.

(** A text of 7-bit ASCII characters only: the texts on which [str.lower]
    and the classes [\b], [\w] of a [str] pattern are the tables of
    [Text]. *)
Definition ascii_text (text : string) : bool :=
  forallb (λ c, (Text.code c <? 128)%N) (list_ascii_of_string text).

(** * Properties *)

(** ** The sort *)

Section sort_facts.
Context {A : Type} (key : A → Q).

Lemma insert_reverse_perm x l : insert_reverse key x l ≡ₚ x :: l.
Proof.
  induction l as [|y l IH]; simpl; [done|].
  destruct (Qlt_le_dec (key x) (key y)); [|done].
  rewrite IH. apply Permutation_swap.
Qed.

Lemma sort_reverse_perm l : sort_reverse key l ≡ₚ l.
Proof.
  induction l as [|x l IH]; simpl; [done|].
  rewrite insert_reverse_perm. by constructor.
Qed.

Lemma insert_reverse_descending x l :
  descending key l → descending key (insert_reverse key x l).
Proof.
  unfold descending. induction 1 as [|y l Hl IH Hy]; simpl.
  - repeat constructor.
  - destruct (Qlt_le_dec (key x) (key y)) as [Hlt|Hle].
    + constructor; [done|].
      rewrite insert_reverse_perm. constructor; [|done].
      by apply Qlt_le_weak.
    + constructor; [by constructor|].
      constructor; [done|].
      eapply Forall_impl; [exact Hy|]. simpl. intros z Hz.
      by apply Qle_trans with (key y).
Qed.

Lemma sort_reverse_descending l : descending key (sort_reverse key l).
Proof.
  induction l as [|x l IH]; simpl.
  - constructor.
  - by apply insert_reverse_descending.
Qed.

Lemma tied_cons q x l :
  tied key q (x :: l) =
    if decide (key x == q) then x :: tied key q l else tied key q l.
Proof. unfold tied. by rewrite filter_cons. Qed.

(** Insertion passes only items of strictly greater key, so it never
    crosses a tie. *)
Lemma insert_reverse_tied q x l :
  tied key q (insert_reverse key x l) = tied key q (x :: l).
Proof.
  induction l as [|y l IH]; simpl; [done|].
  destruct (Qlt_le_dec (key x) (key y)) as [Hlt|Hle]; [|done].
  rewrite (tied_cons q y), IH, !tied_cons.
  destruct (decide (key x == q)) as [Hx|Hx],
           (decide (key y == q)) as [Hy|Hy]; try done.
  rewrite Hx, Hy in Hlt. by apply Qlt_irrefl in Hlt.
Qed.

Lemma sort_reverse_tied q l : tied key q (sort_reverse key l) = tied key q l.
Proof.
  induction l as [|x l IH]; simpl; [done|].
  by rewrite insert_reverse_tied, !tied_cons, IH.
Qed.

Lemma tied_sublist q l : tied key q l `sublist_of` l.
Proof. apply sublist_filter. Qed.

Lemma tied_head_le x l y l' :
  Forall (λ z, key z <= key y) l' →
  tied key (key x) (x :: l) = tied key (key x) (y :: l') →
  key x <= key y.
Proof.
  intros Hy Heq. rewrite (tied_cons (key x) x) in Heq.
  rewrite decide_True in Heq by reflexivity.
  assert (x ∈ tied key (key x) (y :: l')) as Hin by (rewrite <- Heq; left).
  apply list_elem_of_filter in Hin as [_ [->|Hin]%elem_of_cons].
  - apply Qle_refl.
  - by apply (proj1 (Forall_forall _ _) Hy).
Qed.

(** A list in non-increasing order is determined by its classes of ties:
    whatever stable sort Python runs, it returns the list [sort_reverse]
    returns. *)
Lemma descending_tied_unique l1 l2 :
  descending key l1 → descending key l2 →
  (∀ q, tied key q l1 = tied key q l2) → l1 = l2.
Proof.
  intros Hd1. revert l2.
  induction Hd1 as [|x l1 Hd1 IH Hx]; intros l2 Hd2 Heq.
  - destruct l2 as [|y l2]; [done|]. specialize (Heq (key y)).
    rewrite tied_cons, decide_True in Heq by reflexivity. done.
  - destruct Hd2 as [|y l2 Hd2 Hy].
    { specialize (Heq (key x)).
      rewrite tied_cons, decide_True in Heq by reflexivity. done. }
    assert (key x == key y) as Hxy.
    { apply Qle_antisym.
      - by apply (tied_head_le x l1 y l2 Hy).
      - by apply (tied_head_le y l2 x l1 Hx). }
    pose proof (Heq (key x)) as Hh. rewrite !tied_cons in Hh.
    rewrite decide_True in Hh by reflexivity.
    rewrite decide_True in Hh by (by symmetry).
    injection Hh as -> _. f_equal. apply IH; [done|].
    intros q. specialize (Heq q). rewrite !tied_cons in Heq.
    destruct (decide (key y == q)); [by injection Heq|done].
Qed.

Lemma sort_reverse_unique l l' :
  descending key l' → (∀ q, tied key q l' = tied key q l) →
  l' = sort_reverse key l.
Proof.
  intros Hd Ht. apply descending_tied_unique; [done| |].
  - apply sort_reverse_descending.
  - intros q. by rewrite sort_reverse_tied.
Qed.
End sort_facts.

(** ** The regular expression *)

Module TextFacts.
Import Text.

Lemma word_side_from_option o : word_side o = from_option is_word false o.
Proof. by destruct o. Qed.

Lemma is_lower_word c : is_lower c = true → is_word c = true.
Proof. unfold is_word, is_alpha. by intros ->. Qed.

Lemma lower_run_all s : Forall (λ c, is_lower c = true) (lower_run s).
Proof.
  induction s as [|c s IH]; simpl; [constructor|].
  destruct (is_lower c) eqn:Hc; [by constructor|constructor].
Qed.

Lemma lower_run_take s : take (length (lower_run s)) s = lower_run s.
Proof.
  induction s as [|c s IH]; simpl; [done|].
  destruct (is_lower c); simpl; by rewrite ?IH.
Qed.

Lemma lower_run_inside s j :
  (j < length (lower_run s))%nat →
  ∃ c, s !! j = Some c ∧ is_lower c = true.
Proof.
  revert j. induction s as [|c s IH]; simpl; intros j Hj; [lia|].
  destruct (is_lower c) eqn:Hc; simpl in Hj; [|lia].
  destruct j as [|j]; simpl; [eauto|]. apply IH. lia.
Qed.

(** A run of [[a-z]] followed by a character outside [\w], or by the end
    of the text, is the greedy run. *)
Lemma lower_run_app tok post :
  Forall (λ c, is_lower c = true) tok →
  word_side (head post) = false →
  lower_run (tok ++ post) = tok.
Proof.
  intros Htok Hpost. induction Htok as [|c tok Hc _ IH]; simpl.
  - destruct post as [|d post]; simpl in *; [done|].
    destruct (is_lower d) eqn:Hd; [|done].
    by rewrite (is_lower_word d Hd) in Hpost.
  - by rewrite Hc, IH.
Qed.

Lemma word_side_inside s j :
  (j < length (lower_run s))%nat → word_side (s !! j) = true.
Proof.
  intros Hj. destruct (lower_run_inside s j Hj) as (c & -> & Hc).
  simpl. by apply is_lower_word.
Qed.

Lemma backtrack_S s j :
  backtrack s (S j) =
    if (S j <? 3)%nat then None
    else if ends_at_boundary s (S j) then Some (S j) else backtrack s j.
Proof. done. Qed.

(** Giving characters back never helps: behind a shorter run there is
    still a letter, so [\b] fails there. *)
Lemma backtrack_shorter s k :
  (k < length (lower_run s))%nat → backtrack s k = None.
Proof.
  induction k as [|k IH]; intros Hk; [done|].
  rewrite backtrack_S. destruct (Nat.ltb_spec (S k) 3); [done|].
  unfold ends_at_boundary, word_boundary.
  rewrite !word_side_inside by (simpl; lia). simpl.
  apply IH. lia.
Qed.

Lemma backtrack_greedy s :
  backtrack s (length (lower_run s)) =
    if bool_decide (3 ≤ length (lower_run s))%nat
       && negb (word_side (s !! length (lower_run s)))
    then Some (length (lower_run s)) else None.
Proof.
  destruct (length (lower_run s)) as [|n] eqn:Hn; [done|].
  rewrite backtrack_S. destruct (Nat.ltb_spec (S n) 3).
  { by rewrite bool_decide_false by lia. }
  rewrite bool_decide_true by lia. simpl andb.
  unfold ends_at_boundary, word_boundary.
  rewrite (word_side_inside s (pred (S n))) by (simpl; lia).
  destruct (word_side (s !! S n)); simpl; [|done].
  apply backtrack_shorter. lia.
Qed.

Lemma match_at_Some prev s tok :
  match_at prev s = Some tok ↔
    word_side prev = false ∧ tok = lower_run s ∧ (3 ≤ length tok)%nat ∧
    word_side (s !! length tok) = false.
Proof.
  unfold match_at. rewrite backtrack_greedy.
  destruct (bool_decide_reflect (3 ≤ length (lower_run s))%nat) as [Hn|Hn];
    simpl andb.
  - assert (word_side (head s) = true) as Hh.
    { rewrite head_lookup. apply word_side_inside. lia. }
    unfold word_boundary. rewrite Hh.
    destruct (word_side prev); simpl.
    + split; [done|]. by intros [? _].
    + destruct (word_side (s !! length (lower_run s))) eqn:Hs; simpl.
      * split; [done|]. intros (_ & -> & _ & Hf). congruence.
      * rewrite lower_run_take. split.
        -- intros [= <-]. done.
        -- by intros (_ & -> & _).
  - split.
    + destruct (word_boundary _ _); done.
    + intros (_ & -> & ? & _). done.
Qed.

Lemma before_cons prev c pre : before prev (c :: pre) = before (Some c) pre.
Proof.
  unfold before. destruct pre as [|d pre]; [done|].
  change (last (c :: d :: pre)) with (last (d :: pre)).
  destruct (last (d :: pre)) eqn:E; [done|]. by apply last_None in E.
Qed.

(** What a search finds: the whole-word runs that start at or behind
    position [skip]. *)
Lemma scan_spec s : ∀ skip prev tok,
  tok ∈ scan skip prev s ↔
    ∃ pre post,
      s = pre ++ tok ++ post ∧ (skip ≤ length pre)%nat ∧
      (3 ≤ length tok)%nat ∧ Forall (λ c, is_lower c = true) tok ∧
      word_side (before prev pre) = false ∧
      word_side (head post) = false.
Proof.
  induction s as [|c s IH]; intros skip prev tok.
  { simpl. split; [by intros ?%elem_of_nil|].
    intros (pre & post & Hs & _ & Hlen & _).
    symmetry in Hs. apply app_eq_nil in Hs as [_ Hs].
    apply app_eq_nil in Hs as [-> _]. simpl in Hlen. lia. }
  assert (∀ k, tok ∈ scan k (Some c) s ↔
    ∃ pre post, c :: s = pre ++ tok ++ post ∧ (S k ≤ length pre)%nat ∧
      (3 ≤ length tok)%nat ∧ Forall (λ c, is_lower c = true) tok ∧
      word_side (before prev pre) = false ∧
      word_side (head post) = false) as Hlater.
  { intros k. rewrite IH. split.
    - intros (pre & post & -> & Hk & H3 & Hall & Hb & Hp).
      exists (c :: pre), post. rewrite before_cons. simpl.
      repeat split; try done. lia.
    - intros (pre & post & Hs & Hk & H3 & Hall & Hb & Hp).
      destruct pre as [|c' pre]; simpl in Hk; [lia|].
      simpl in Hs. injection Hs as <- ->. rewrite before_cons in Hb.
      exists pre, post. repeat split; try done. lia. }
  destruct skip as [|skip]; [|by apply Hlater].
  simpl scan. destruct (match_at prev (c :: s)) as [tok0|] eqn:Hm.
  - apply match_at_Some in Hm as (Hprev & Htok0 & H3 & Hnext).
    rewrite elem_of_cons, Hlater. split.
    + intros [->|(pre & post & ?)].
      * subst tok0. set (n := length (lower_run (c :: s))) in *.
        exists [], (drop n (c :: s)).
        split_and!; try done.
        -- rewrite app_nil_l. etrans; [symmetry; apply (take_drop n)|].
           unfold n. by rewrite lower_run_take.
        -- apply lower_run_all.
        -- rewrite head_lookup, lookup_drop. by rewrite Nat.add_0_r.
      * exists pre, post. intuition lia.
    + intros (pre & post & Hs & _ & Hlen & Hall & Hb & Hp).
      destruct pre as [|c' pre].
      * left. simpl in Hs. rewrite Hs in Htok0.
        by rewrite lower_run_app in Htok0.
      * right. exists (c' :: pre), post. repeat split; try done.
        destruct (decide (length tok0 ≤ length (c' :: pre))%nat) as [|Hlt];
          [lia|exfalso].
        assert (word_side ((c :: s) !! pred (length (c' :: pre))) = true)
          as Hin.
        { apply word_side_inside. rewrite <- Htok0. simpl in *. lia. }
        rewrite Hs, lookup_app_l in Hin by (simpl; lia).
        rewrite <- last_lookup in Hin. unfold before in Hb.
        destruct (last (c' :: pre)); simpl in *; congruence.
  - rewrite Hlater. split.
    + intros (pre & post & ?). exists pre, post. intuition lia.
    + intros (pre & post & Hs & _ & Hlen & Hall & Hb & Hp).
      destruct pre as [|c' pre].
      * exfalso. simpl in Hs, Hb.
        assert (match_at prev (c :: s) = Some tok) as Hm'; [|congruence].
        apply match_at_Some. rewrite Hs, lower_run_app by done.
        repeat split; try done.
        rewrite lookup_app_r by done. rewrite Nat.sub_diag.
        by rewrite <- head_lookup.
      * exists (c' :: pre), post. repeat split; try done. simpl. lia.
Qed.

Lemma findall_spec s tok :
  tok ∈ findall s ↔ run_in is_lower is_word s tok.
Proof.
  unfold findall, run_in. rewrite scan_spec.
  split; intros (pre & post & Hs & H); exists pre, post;
    (split; [done|]); rewrite <- !word_side_from_option in *;
    unfold before in *; destruct (last pre); simpl in *;
    intuition (try lia; done).
Qed.

End TextFacts.

(** ** The keyword engine *)

(** A keyword of the regular expression is always a maximal alphabetic run:
    the converse is what fails. *)
Lemma whole_word_run_maximal text t :
  whole_word_run text t → maximal_alpha_run text t.
Proof.
  unfold whole_word_run, maximal_alpha_run, run_in.
  intros (pre & post & Hs & H3 & Hall & Hpre & Hpost).
  exists pre, post. split_and!; try done.
  - eapply Forall_impl; [exact Hall|]. unfold Text.is_alpha.
    by intros c ->.
  - destruct (last pre) as [c|]; simpl in *; [|done].
    unfold Text.is_word in Hpre.
    by destruct (Text.is_alpha c).
  - destruct (head post) as [c|]; simpl in *; [|done].
    unfold Text.is_word in Hpost.
    by destruct (Text.is_alpha c).
Qed.

Section jaccard_facts.
Implicit Types X Y : gset string.

Lemma intersection_le_union X Y : (size (X ∩ Y) ≤ size (X ∪ Y))%nat.
Proof.
  apply subseteq_size. etrans; [apply intersection_subseteq_l|].
  apply union_subseteq_l.
Qed.

Lemma ratio_bounds (i u : nat) :
  (i ≤ u)%nat → (0 < u)%nat →
  0 <= inject_Z (Z.of_nat i) / inject_Z (Z.of_nat u) <= 1.
Proof.
  intros Hiu Hu.
  assert (0 < inject_Z (Z.of_nat u)) as Hpos.
  { change 0 with (inject_Z 0). rewrite <- Zlt_Qlt. lia. }
  split.
  - apply Qle_shift_div_l; [done|]. rewrite Qmult_0_l.
    change 0 with (inject_Z 0). rewrite <- Zle_Qle. lia.
  - apply Qle_shift_div_r; [done|]. rewrite Qmult_1_l.
    rewrite <- Zle_Qle. lia.
Qed.

Lemma ratio_self (u : nat) :
  (0 < u)%nat → inject_Z (Z.of_nat u) / inject_Z (Z.of_nat u) == 1.
Proof.
  intros Hu. apply Qmult_inv_r.
  change 0 with (inject_Z 0). rewrite inject_Z_injective. lia.
Qed.

Lemma ratio_zero (u : nat) : inject_Z (Z.of_nat 0) / inject_Z (Z.of_nat u) == 0.
Proof. unfold Qdiv. simpl. apply Qmult_0_l. Qed.

Lemma size_pos X : X ≠ ∅ → (0 < size X)%nat.
Proof.
  intros HX. destruct (size X) eqn:E; [|lia].
  by apply size_empty_inv, leibniz_equiv in E.
Qed.

(** The score is the Jaccard ratio unless the job description has no
    keyword, and it is 0 then. *)
Lemma keyword_matching_score_unfold cv_text job_description :
  keyword_matching_score cv_text job_description =
    if decide (extract_keywords job_description = ∅) then 0
    else jaccard (extract_keywords cv_text)
                 (extract_keywords job_description).
Proof.
  unfold keyword_matching_score, jaccard. simpl.
  destruct (decide _) as [|Hne]; [done|].
  destruct (Nat.ltb_spec 0
    (size (extract_keywords cv_text ∪ extract_keywords job_description)))
    as [|Hle]; [done|].
  exfalso. apply Hne.
  assert (extract_keywords cv_text ∪ extract_keywords job_description = ∅)
    as Hu.
  { apply leibniz_equiv, size_empty_inv. lia. }
  apply empty_union_L in Hu. tauto.
Qed.
End jaccard_facts.

(** ** Dictionaries *)

Section dict_facts.
Context {K V : Type} `{EqDecision K}.
Implicit Types (d l : list (K * V)).

Lemma dict_get_set k k' v d :
  dict_get k (dict_set k' v d) =
    if decide (k = k') then Some v else dict_get k d.
Proof.
  induction d as [|[k0 v0] d IH]; simpl.
  - by destruct (decide (k = k')).
  - destruct (decide (k' = k0)) as [->|Hne]; simpl.
    + by destruct (decide (k = k0)).
    + rewrite IH. destruct (decide (k = k0)) as [->|]; [|done].
      by rewrite decide_False by done.
Qed.

Lemma dict_get_foldl k l d :
  is_Some (dict_get k (foldl (λ d kv, dict_set kv.1 kv.2 d) d l)) ↔
    is_Some (dict_get k d) ∨ k ∈ l.*1.
Proof.
  revert d. induction l as [|[k0 v0] l IH]; intros d; simpl.
  - rewrite elem_of_nil. tauto.
  - rewrite IH, dict_get_set, elem_of_cons.
    destruct (decide (k = k0)); [|tauto]. split; eauto.
Qed.

Lemma dict_of_items_is_Some k l :
  is_Some (dict_get k (dict_of_items l)) ↔ k ∈ l.*1.
Proof.
  unfold dict_of_items. rewrite dict_get_foldl. simpl.
  split; [|by right]. by intros [[? [=]]|].
Qed.

(** Writing a new key appends it. *)
Lemma dict_set_fresh k v d : k ∉ d.*1 → dict_set k v d = d ++ [(k, v)].
Proof.
  induction d as [|[k0 v0] d IH]; simpl; [done|].
  rewrite not_elem_of_cons. intros [Hne Hd].
  by rewrite decide_False, IH by done.
Qed.

Lemma foldl_dict_set_fresh l d :
  NoDup (d ++ l).*1 →
  foldl (λ d kv, dict_set kv.1 kv.2 d) d l = d ++ l.
Proof.
  revert d. induction l as [|[k v] l IH]; intros d Hnd; simpl.
  - by rewrite app_nil_r.
  - assert (k ∉ d.*1) as Hk.
    { rewrite fmap_app in Hnd. apply NoDup_app in Hnd as (_ & Hnd & _).
      intros Hin. apply (Hnd k Hin). simpl. by left. }
    rewrite dict_set_fresh by done. rewrite IH.
    + by rewrite <- app_assoc.
    + by rewrite <- app_assoc.
Qed.

(** Items with distinct keys make the dict that lists them in order. *)
Lemma dict_of_items_NoDup l : NoDup l.*1 → dict_of_items l = l.
Proof. intros. by apply (foldl_dict_set_fresh l []). Qed.
End dict_facts.

(** ** The rankers *)

Section ranking_facts.
Context {Vec : Type}.
Context (encode : string → Vec) (cosine_similarity : Vec → Vec → Q).
Implicit Types (w : world Vec) (items : list (Z * Vec)).

Lemma loaded_file w :
  loaded w = match embeddings_file w with
             | None => []
             | Some data => dict_of_items data
             end.
Proof. done. Qed.

Lemma load_embeddings_run w :
  load_embeddings w = ([ReadEmbeddingsFile], inr (loaded w)).
Proof. done. Qed.

(** What a run of [rank_candidates] does and returns. *)
Lemma rank_candidates_run w q :
  rank_candidates encode cosine_similarity w q =
    match loaded w with
    | [] => ([Encode q; ReadEmbeddingsFile], inl NoEmbeddingsError)
    | _ =>
        ([Encode q; ReadEmbeddingsFile; SelectNames],
         inr (sort_reverse (λ x, x.2)
                (score_loop cosine_similarity (encode q) (names w)
                            (loaded w))))
    end.
Proof.
  unfold rank_candidates, generate_embedding. rewrite load_embeddings_run.
  unfold bind, perform. simpl. by destruct (loaded w).
Qed.

Lemma score_loop_ids e nm items :
  (score_loop cosine_similarity e nm items).*1.*1 `sublist_of` items.*1.
Proof.
  induction items as [|[cid v] items IH]; simpl; [done|].
  destruct (dict_get cid nm); simpl.
  - by apply sublist_skip.
  - by apply sublist_cons.
Qed.

Lemma name_of_is_Some w cid :
  is_Some (name_of w cid) ↔ cid ∈ candidate_ids w.
Proof.
  unfold name_of, names, candidate_ids. rewrite dict_of_items_is_Some.
  by rewrite <- list_fmap_compose.
Qed.

(** The loop scores the stored pairs whose id the candidate store has. *)
Lemma score_loop_filter w q items :
  score_loop cosine_similarity (encode q) (names w) items =
    score_of encode cosine_similarity w q
      <$> filter (λ item, item.1 ∈ candidate_ids w) items.
Proof.
  induction items as [|[cid v] items IH]; simpl; [done|].
  rewrite filter_cons. simpl.
  destruct (decide (cid ∈ candidate_ids w)) as [Hin|Hin].
  - apply name_of_is_Some in Hin as [name Hname].
    unfold name_of in Hname.
    rewrite Hname, IH. simpl. unfold score_of at 2. simpl.
    unfold name_of. by rewrite Hname.
  - destruct (dict_get cid (names w)) as [name|] eqn:Hname; [|done].
    exfalso. apply Hin, name_of_is_Some. by exists name.
Qed.

Lemma select_full_text_run w cid :
  select_full_text w cid = ([SelectFullText cid], inr (full_text_of w cid)).
Proof. done. Qed.

Lemma hybrid_tuple_unfold w q sw kw cid name s :
  hybrid_tuple w q sw kw (cid, name, s) =
    match full_text_of w cid with
    | Some cv_text =>
        Some (cid, name, s, keyword_matching_score cv_text q,
              combined_score sw kw s (keyword_matching_score cv_text q))
    | None => None
    end.
Proof. unfold hybrid_tuple. simpl. by destruct (full_text_of w cid). Qed.

Lemma hybrid_loop_cons w q sw kw cid name s rest :
  hybrid_loop w q sw kw ((cid, name, s) :: rest) =
    bind (select_full_text w cid) (λ result,
      match result with
      | None => hybrid_loop w q sw kw rest
      | Some cv_text =>
          bind (hybrid_loop w q sw kw rest) (λ hybrid_results,
            ret ((cid, name, s, keyword_matching_score cv_text q,
                  combined_score sw kw s (keyword_matching_score cv_text q))
                   :: hybrid_results))
      end).
Proof. done. Qed.

(** What the loop of [hybrid_rank] does and returns: it never raises. *)
Lemma hybrid_loop_run w q sw kw sem :
  hybrid_loop w q sw kw sem =
    ((λ x, SelectFullText x.1.1) <$> sem,
     inr (omap (hybrid_tuple w q sw kw) sem)).
Proof.
  induction sem as [|[[cid name] s] sem IH]; [done|].
  rewrite hybrid_loop_cons, select_full_text_run.
  rewrite fmap_cons. cbn [omap list_omap]. rewrite hybrid_tuple_unfold.
  unfold bind at 1.
  destruct (full_text_of w cid) as [cv_text|]; rewrite IH; [|done].
  unfold bind, ret. by rewrite app_nil_r.
Qed.

Lemma hybrid_tuples_semantic w q sw kw sem :
  semantic_part <$> omap (hybrid_tuple w q sw kw) sem `sublist_of` sem.
Proof.
  induction sem as [|[[cid name] s] sem IH]; simpl; [done|].
  unfold hybrid_tuple at 1. simpl.
  destruct (full_text_of w cid); simpl.
  - by apply sublist_skip.
  - by apply sublist_cons.
Qed.

(** What a run of [hybrid_rank] does and returns once the weights pass. *)
Lemma hybrid_rank_run w q sw kw :
  Qabs (sw + kw - 1.0) <= 0.01 →
  hybrid_rank encode cosine_similarity w q sw kw =
    match (rank_candidates encode cosine_similarity w q).2 with
    | inl e => ((rank_candidates encode cosine_similarity w q).1, inl e)
    | inr sem =>
        ((rank_candidates encode cosine_similarity w q).1
           ++ ((λ x, SelectFullText x.1.1) <$> sem),
         inr (sort_reverse (λ x, x.2) (omap (hybrid_tuple w q sw kw) sem)))
    end.
Proof.
  intros Hw. unfold hybrid_rank.
  destruct (Qlt_le_dec _ _) as [Hlt|_].
  { exfalso. by apply (Qlt_not_le _ _ Hlt). }
  destruct (rank_candidates _ _ w q) as [t [e|sem]]; simpl; [done|].
  rewrite hybrid_loop_run. simpl. by rewrite app_nil_r.
Qed.

Lemma hybrid_rank_invalid w q sw kw :
  0.01 < Qabs (sw + kw - 1.0) →
  hybrid_rank encode cosine_similarity w q sw kw
  = ([], inl InvalidWeightsError).
Proof.
  intros Hw. unfold hybrid_rank.
  destruct (Qlt_le_dec _ _) as [_|Hle]; [done|].
  exfalso. by apply (Qlt_not_le _ _ Hw).
Qed.

Lemma store_embedding_load cid v model w :
  load_embeddings (store_embedding cid v model w) = load_embeddings w.
Proof. done. Qed.

End ranking_facts.

(** * The claims *)

(** ** The embedding store *)

Section precompute_facts.
Context {Vec : Type} (encode : string → Vec).

Lemma precompute_loop_run rows ed md model :
  precompute_loop encode rows ed md model =
    ((λ r, Encode r.2) <$> rows,
     inr (foldl (λ d kv, dict_set kv.1 kv.2 d) ed
                ((λ r, (r.1, encode r.2)) <$> rows),
          foldl (λ d kv, dict_set kv.1 kv.2 d) md
                ((λ r, (r.1, model)) <$> rows))).
Proof.
  revert ed md. induction rows as [|[cid text] rows IH]; intros ed md;
    [done|].
  simpl precompute_loop. unfold generate_embedding, perform, bind.
  by rewrite IH.
Qed.

Lemma precompute_all_embeddings_run model (w : world Vec) :
  candidates w ≠ [] →
  precompute_all_embeddings encode model w =
    (SelectCandidates :: ((λ r, Encode r.2) <$> candidates w)
       ++ [WriteEmbeddingsFile],
     inr (World (candidates w) (cv_embeddings w)
            (Some (dict_of_items
                     ((λ r, (r.1.1, encode r.2)) <$> candidates w)))
            (Some (dict_of_items
                     ((λ r, (r.1.1, model)) <$> candidates w))))).
Proof.
  intros Hne. unfold precompute_all_embeddings.
  unfold perform at 1. unfold bind at 1.
  destruct ((λ r, (r.1.1, r.2)) <$> candidates w) as [|p rows] eqn:Hrows.
  { by apply fmap_nil_inv in Hrows. }
  rewrite precompute_loop_run, <- Hrows.
  unfold bind, perform, dict_of_items.
  by rewrite <- !list_fmap_compose.
Qed.

(** X1.  The bulk path writes what [load_embeddings] reads: after a precompute
    every candidate is loaded, in the order of the store. *)
Lemma precompute_all_embeddings_loaded model (w : world Vec) :
  candidates w ≠ [] → NoDup (candidate_ids w) →
  ∃ t w',
    precompute_all_embeddings encode model w = (t, inr w') ∧
    loaded w' = (λ r, (r.1.1, encode r.2)) <$> candidates w.
Proof.
  intros Hne Hnd. rewrite precompute_all_embeddings_run by done.
  eexists _, _. split; [done|].
  assert (NoDup ((λ r, (r.1.1, encode r.2)) <$> candidates w).*1) as Hnd'.
  { by rewrite <- list_fmap_compose. }
  rewrite loaded_file. cbn [embeddings_file].
  rewrite (dict_of_items_NoDup (_ <$> candidates w)) by done.
  by apply dict_of_items_NoDup.
Qed.
End precompute_facts.

(** C1 (the code departs from it).  After [store_embedding] the vector is in
    the table [cv_embeddings], yet [load_embeddings] reads only the archive
    file: it still returns nothing for the candidate and [rank_candidates]
    still raises for want of embeddings. *)
Theorem store_embedding_not_loaded :
  let w := store_embedding 1 [1; 0] Example.model_name Example.fresh in
  cv_embeddings w !! 1%Z = Some ([1; 0], Example.model_name) ∧
  loaded w = [] ∧
  Example.rank w Example.job
  = ([Encode Example.job; ReadEmbeddingsFile], inl NoEmbeddingsError).
Proof. split_and!; [apply lookup_insert_eq|done|done]. Qed.

(** ** Weights *)

Section weights_facts.
Import PrimFloat.
Local Set Warnings "-inexact-float".
Context {Vec : Type}.
Context (encode : string → Vec) (cosine_similarity : Vec → Vec → Q).
Implicit Types (w : world Vec) (sw kw : float).

Lemma hybrid_rank_binary64_run w q sw kw :
  (0.01 <? abs (sw + kw - 1.0))%float = false →
  hybrid_rank_binary64 encode cosine_similarity w q sw kw =
    match (rank_candidates encode cosine_similarity w q).2 with
    | inl e => ((rank_candidates encode cosine_similarity w q).1, inl e)
    | inr sem =>
        ((rank_candidates encode cosine_similarity w q).1
           ++ ((λ x, SelectFullText x.1.1) <$> sem),
         inr (sort_reverse (λ x, x.2)
                (omap (hybrid_tuple w q (exact sw) (exact kw)) sem)))
    end.
Proof.
  intros Hw. unfold hybrid_rank_binary64. rewrite Hw.
  destruct (rank_candidates _ _ w q) as [t [e|sem]]; simpl; [done|].
  rewrite hybrid_loop_run. simpl. by rewrite app_nil_r.
Qed.

(** Where the two tests agree, the two models of [hybrid_rank] do. *)
Lemma hybrid_rank_binary64_exact w q sw kw :
  (0.01 <? abs (sw + kw - 1.0))%float = false →
  Qabs (exact sw + exact kw - 1.0) <= 0.01 →
  hybrid_rank_binary64 encode cosine_similarity w q sw kw
  = hybrid_rank encode cosine_similarity w q (exact sw) (exact kw).
Proof.
  intros Hw Hexact.
  by rewrite hybrid_rank_binary64_run, hybrid_rank_run.
Qed.

(** C2.  Weights whose sum, as the code computes it in binary64, is off 1.0
    by more than 0.01 make [hybrid_rank] raise [InvalidWeightsError] with
    nothing done before: no event at all.  Weights that pass the test never
    raise it. *)
Theorem hybrid_rank_validates_weights w q sw kw :
  ((0.01 <? abs (sw + kw - 1.0))%float = true →
     hybrid_rank_binary64 encode cosine_similarity w q sw kw
     = ([], inl InvalidWeightsError)) ∧
  ((0.01 <? abs (sw + kw - 1.0))%float = false →
     (hybrid_rank_binary64 encode cosine_similarity w q sw kw).2
     ≠ inl InvalidWeightsError).
Proof.
  split; intros Hw.
  - unfold hybrid_rank_binary64. by rewrite Hw.
  - rewrite hybrid_rank_binary64_run by done. rewrite rank_candidates_run.
    destruct (loaded w); simpl; [|done].
    by intros [=].
Qed.

End weights_facts.

Section weights_examples.
Import PrimFloat.
Local Set Warnings "-inexact-float".

Lemma hybrid_rank_validates_weights_witness :
  hybrid_rank_binary64 Example.stub_encode Example.stub_cosine
    Example.two_candidates Example.job 0.7%float 0.5%float
  = ([], inl InvalidWeightsError) ∧
  (hybrid_rank_binary64 Example.stub_encode Example.stub_cosine
     Example.two_candidates Example.job 0.7%float 0.3%float).2
  ≠ inl InvalidWeightsError.
Proof.
  destruct (hybrid_rank_validates_weights Example.stub_encode
              Example.stub_cosine
              Example.two_candidates Example.job 0.7%float 0.5%float)
    as [H _].
  destruct (hybrid_rank_validates_weights Example.stub_encode
              Example.stub_cosine
              Example.two_candidates Example.job 0.7%float 0.3%float)
    as [_ H'].
  split; [apply H | apply H']; reflexivity.
Defined.

(** Next to the bound the rounding decides: the floats 0.7 and 0.31 add up
    to within 0.01 of 1, and to 1.01 once rounded, which is off 1.0 by more
    than the float 0.01: the code raises where the exact test passes. *)
Lemma hybrid_rank_binary64_boundary :
  Qabs (exact 0.7%float + exact 0.31%float - 1.0) <= 0.01 ∧
  hybrid_rank_binary64 Example.stub_encode Example.stub_cosine
    Example.two_candidates Example.job 0.7%float 0.31%float
  = ([], inl InvalidWeightsError) ∧
  (Example.hybrid Example.two_candidates Example.job
     (exact 0.7%float) (exact 0.31%float)).2
  ≠ inl InvalidWeightsError.
Proof. split_and!; by vm_compute. Qed.

End weights_examples.

(** ** The empty store *)

(** C3.  When [load_embeddings] returns the empty mapping, [rank_candidates]
    raises [NoEmbeddingsError], after encoding the query and reading the
    archive; it returns no ranking. *)
Theorem rank_candidates_no_embeddings {Vec} (encode : string → Vec)
    (cosine_similarity : Vec → Vec → Q) (w : world Vec) (q : string) :
  (load_embeddings w).2 = inr [] →
  rank_candidates encode cosine_similarity w q
  = ([Encode q; ReadEmbeddingsFile], inl NoEmbeddingsError).
Proof.
  intros Hload. rewrite rank_candidates_run. unfold loaded.
  by rewrite Hload.
Qed.

Lemma rank_candidates_no_embeddings_witness :
  Example.rank Example.fresh Example.job
  = ([Encode Example.job; ReadEmbeddingsFile], inl NoEmbeddingsError).
Proof.
  apply (rank_candidates_no_embeddings Example.stub_encode Example.stub_cosine
           Example.fresh Example.job).
  reflexivity.
Defined.

(** ** Keywords *)

(** C4, as the code has it.  The keywords of an ASCII text are the runs of
    three or more of [[a-z]] of its lower-cased form that no word character
    (letter, digit or underscore) touches: whole words, kept as a set, with
    no stopword removed. *)
Theorem extract_keywords_whole_words (text t : string) :
  ascii_text text = true →
  (t ∈ extract_keywords text ↔ whole_word_run text t).
Proof.
  intros _. unfold extract_keywords, whole_word_run.
  rewrite elem_of_list_to_set, list_elem_of_fmap. split.
  - intros (tok & -> & Htok%TextFacts.findall_spec).
    by rewrite list_ascii_of_string_of_list_ascii.
  - intros Hrun%TextFacts.findall_spec.
    exists (list_ascii_of_string t).
    by rewrite string_of_list_ascii_of_string.
Qed.

Lemma extract_keywords_whole_words_witness :
  "python"%string ∈ extract_keywords "Senior Python developer, 5y" ↔
  whole_word_run "Senior Python developer, 5y" "python".
Proof.
  apply (extract_keywords_whole_words "Senior Python developer, 5y" "python").
  reflexivity.
Defined.

(** C4, as stated, fails: in "abc123" the letters "abc" are a maximal run of
    three alphabetic characters, next to a digit, and yet not a keyword. *)
Lemma extract_keywords_misses_run :
  maximal_alpha_run "abc123" "abc" ∧ "abc" ∉ extract_keywords "abc123".
Proof.
  split.
  - exists [], (list_ascii_of_string "123").
    by split_and!; [|simpl; lia|repeat constructor|..].
  - by vm_compute.
Qed.

(** C5.  The score is the Jaccard ratio of the two keyword sets when their
    union is not empty; it lies between 0 and 1; a text with a keyword scores
    1 against itself; two texts without keywords score 0. *)
Theorem keyword_matching_score_jaccard (cv_text job_description : string) :
  let X := extract_keywords cv_text in
  let Y := extract_keywords job_description in
  (X ∪ Y ≠ ∅ → keyword_matching_score cv_text job_description == jaccard X Y) ∧
  0 <= keyword_matching_score cv_text job_description <= 1 ∧
  (X ≠ ∅ → keyword_matching_score cv_text cv_text == 1) ∧
  (X = ∅ → Y = ∅ → keyword_matching_score cv_text job_description == 0).
Proof.
  intros X Y. split; [|split; [|split]].
  - intros Hne. rewrite keyword_matching_score_unfold. fold X Y.
    destruct (decide (Y = ∅)) as [HY|HY]; [|done].
    unfold jaccard. rewrite HY, intersection_empty_r_L.
    by rewrite size_empty, ratio_zero.
  - rewrite keyword_matching_score_unfold. fold X Y.
    destruct (decide (Y = ∅)); [done|]. unfold jaccard.
    apply ratio_bounds.
    + apply intersection_le_union.
    + apply size_pos. by intros [_ ?]%empty_union_L.
  - intros HX. rewrite keyword_matching_score_unfold. fold X.
    rewrite decide_False by done.
    unfold jaccard. rewrite (idemp_L (∩) X), (idemp_L (∪) X).
    apply ratio_self. by apply size_pos.
  - intros _ HY. rewrite keyword_matching_score_unfold. fold Y.
    by rewrite decide_True by done.
Qed.

Lemma keyword_matching_score_jaccard_witness :
  keyword_matching_score "Python and AWS" "python developer" == 1 # 4 ∧
  keyword_matching_score "Python and AWS" "Python and AWS" == 1 ∧
  keyword_matching_score "C# 7" "" == 0.
Proof.
  destruct (keyword_matching_score_jaccard "Python and AWS" "python developer")
    as (Hj & _ & Hs & _).
  destruct (keyword_matching_score_jaccard "C# 7" "") as (_ & _ & _ & He).
  split_and!.
  - rewrite Hj; [by vm_compute|]. by vm_compute.
  - apply Hs. by vm_compute.
  - apply He; by vm_compute.
Defined.

(** C10.  The score does not depend on the order of its two texts, and it is
    0 in both orders as soon as one of them has no keyword. *)
Theorem keyword_matching_score_comm (cv_text job_description : string) :
  keyword_matching_score cv_text job_description
  == keyword_matching_score job_description cv_text ∧
  (extract_keywords cv_text = ∅ ∨ extract_keywords job_description = ∅ →
   keyword_matching_score cv_text job_description == 0 ∧
   keyword_matching_score job_description cv_text == 0).
Proof.
  rewrite !keyword_matching_score_unfold.
  set (X := extract_keywords cv_text).
  set (Y := extract_keywords job_description).
  assert (∀ Z, jaccard ∅ Z == 0) as HL.
  { intros Z. unfold jaccard.
    by rewrite intersection_empty_l_L, size_empty, ratio_zero. }
  assert (jaccard X Y = jaccard Y X) as Hc.
  { unfold jaccard. by rewrite (comm_L (∩) X Y), (comm_L (∪) X Y). }
  destruct (decide (Y = ∅)) as [Hy|Hy], (decide (X = ∅)) as [Hx|Hx].
  - done.
  - rewrite Hy, HL. done.
  - rewrite Hx, HL. done.
  - rewrite Hc. split; [done|]. by intros [?|?].
Qed.

Lemma keyword_matching_score_comm_witness :
  keyword_matching_score "C# 7" "python developer" == 0 ∧
  keyword_matching_score "python developer" "C# 7" == 0.
Proof.
  apply (keyword_matching_score_comm "C# 7" "python developer").
  left. by vm_compute.
Defined.

(** ** Order of the rankings *)

(** C6, as the code has it.  With embeddings loaded, the semantic ranking is
    in non-increasing order of score, and candidates with equal scores come
    in the iteration order of the embedding collection.  With valid weights
    the hybrid ranking is in non-increasing order of combined score, and
    candidates with equal combined scores come in the order of the semantic
    ranking: by falling semantic score, and by the collection only among
    equal semantic scores. *)
Theorem ranking_order {Vec} (encode : string → Vec)
    (cosine_similarity : Vec → Vec → Q) (w : world Vec) (q : string)
    (sw kw : Q) :
  loaded w ≠ [] →
  ∃ sem,
    (rank_candidates encode cosine_similarity w q).2 = inr sem ∧
    descending snd sem ∧
    (∀ s, (tied snd s sem).*1.*1 `sublist_of` (loaded w).*1) ∧
    (Qabs (sw + kw - 1.0) <= 0.01 →
     ∃ res,
       (hybrid_rank encode cosine_similarity w q sw kw).2 = inr res ∧
       descending snd res ∧
       ∀ s, semantic_part <$> tied snd s res `sublist_of` sem).
Proof.
  intros Hne.
  assert ((rank_candidates encode cosine_similarity w q).2
          = inr (sort_reverse snd
                   (score_loop cosine_similarity (encode q) (names w)
                               (loaded w)))) as Hsem.
  { rewrite rank_candidates_run. by destruct (loaded w). }
  eexists. split; [exact Hsem|]. split_and!.
  - apply sort_reverse_descending.
  - intros s. rewrite sort_reverse_tied.
    etrans; [|apply (score_loop_ids cosine_similarity)].
    do 2 apply fmap_sublist. apply tied_sublist.
  - intros Hw. rewrite hybrid_rank_run, Hsem by done.
    eexists. split; [done|]. split.
    + apply (sort_reverse_descending snd).
    + intros s. rewrite (sort_reverse_tied snd).
      etrans; [|apply (hybrid_tuples_semantic w q sw kw)].
      apply fmap_sublist, tied_sublist.
Qed.

Lemma ranking_order_witness :
  ∃ sem res,
    (Example.rank Example.two_candidates Example.job).2 = inr sem ∧
    (Example.hybrid Example.two_candidates Example.job 0.7 0.3).2 = inr res ∧
    descending snd sem ∧ descending snd res ∧
    (∀ s, (tied snd s sem).*1.*1
          `sublist_of` (loaded Example.two_candidates).*1) ∧
    (∀ s, semantic_part <$> tied snd s res `sublist_of` sem).
Proof.
  assert (loaded Example.two_candidates ≠ []) as Hne by (by vm_compute).
  assert (Qabs (0.7 + 0.3 - 1.0) <= 0.01) as Hw by (by vm_compute).
  destruct (ranking_order Example.stub_encode Example.stub_cosine
              Example.two_candidates Example.job 0.7 0.3 Hne)
    as (sem & Hsem & Hd & Ht & Hh).
  destruct (Hh Hw) as (res & Hres & Hd' & Ht').
  exists sem, res. split_and!; assumption.
Defined.

(** C6, as stated, fails for the hybrid ranking.  Candidate 1 precedes
    candidate 2 in the embedding collection; under weights 0.5 and 0.5 both
    have the combined score 0.5, and the hybrid ranking lists 2 before 1,
    because the semantic ranking did. *)
Lemma hybrid_rank_ties_follow_semantic_ranking :
  ∃ res,
    (Example.hybrid Example.two_candidates Example.job 0.5 0.5).2 = inr res ∧
    (tied snd 0.5 res).*1.*1.*1.*1 = [2%Z; 1%Z] ∧
    (loaded Example.two_candidates).*1 = [1%Z; 2%Z] ∧
    ¬ [2%Z; 1%Z] `sublist_of` [1%Z; 2%Z].
Proof.
  eexists. split_and!.
  - by vm_compute.
  - by vm_compute.
  - by vm_compute.
  - intros H.
    repeat match goal with
           | H : _ `sublist_of` _ |- _ => inversion H; clear H; subst
           end.
Qed.

(** ** Scores *)

(** C7.  Every tuple of the hybrid ranking carries the semantic score of the
    candidate in the semantic ranking, the keyword score of the candidate's
    full text against the job description, and their weighted sum; for the
    scores 0.8 and 0.4 under the weights 0.7 and 0.3 that sum is 0.68. *)
Theorem hybrid_rank_combined {Vec} (encode : string → Vec)
    (cosine_similarity : Vec → Vec → Q) (w : world Vec) (q : string)
    (sw kw : Q) (res : list (Z * string * Q * Q * Q)) :
  (hybrid_rank encode cosine_similarity w q sw kw).2 = inr res →
  (∀ cid name sem kws comb,
     (cid, name, sem, kws, comb) ∈ res →
     comb = sw * sem + kw * kws ∧
     (∃ cv_text, full_text_of w cid = Some cv_text ∧
                 kws = keyword_matching_score cv_text q) ∧
     (cid, name, sem) ∈ value (rank_candidates encode cosine_similarity w q)) ∧
  combined_score 0.7 0.3 0.8 0.4 == 0.68.
Proof.
  intros Hres. split; [|by vm_compute].
  intros cid name sem kws comb Hin.
  destruct (Qlt_le_dec 0.01 (Qabs (sw + kw - 1.0))) as [Hw|Hw].
  { by rewrite hybrid_rank_invalid in Hres. }
  rewrite hybrid_rank_run in Hres by done. unfold value.
  destruct (rank_candidates encode cosine_similarity w q).2 as [e|ranked];
    [done|].
  injection Hres as <-.
  rewrite sort_reverse_perm in Hin.
  apply list_elem_of_omap in Hin as ([[cid' name'] sem'] & Hx & Ht).
  rewrite hybrid_tuple_unfold in Ht.
  destruct (full_text_of w cid') as [cv_text|] eqn:Hft; [|done].
  injection Ht as -> -> -> <- <-. split_and!; [done| |done].
  by exists cv_text.
Qed.

Lemma hybrid_rank_combined_witness :
  ∃ res,
    (Example.hybrid Example.two_candidates Example.job 0.7 0.3).2 = inr res ∧
    res ≠ [] ∧
    ∀ cid name sem kws comb,
      (cid, name, sem, kws, comb) ∈ res → comb = 0.7 * sem + 0.3 * kws.
Proof.
  eexists. split; [by vm_compute|]. split; [done|].
  intros cid name sem kws comb Hin.
  eapply (hybrid_rank_combined Example.stub_encode Example.stub_cosine
            Example.two_candidates Example.job 0.7 0.3); [|exact Hin].
  by vm_compute.
Defined.

(** ** Stale entries *)

(** C9.  With embeddings loaded, [rank_candidates] does not raise, and its
    ranking holds one tuple for each stored pair whose id the candidate store
    has, with the cosine of the query and the stored vector, and none for the
    other stored pairs. *)
Theorem rank_candidates_skips_stale {Vec} (encode : string → Vec)
    (cosine_similarity : Vec → Vec → Q) (w : world Vec) (q : string) :
  loaded w ≠ [] →
  ∃ t res,
    rank_candidates encode cosine_similarity w q = (t, inr res) ∧
    res ≡ₚ score_of encode cosine_similarity w q
             <$> filter (λ item, item.1 ∈ candidate_ids w) (loaded w) ∧
    ∀ cid, cid ∉ candidate_ids w → cid ∉ res.*1.*1.
Proof.
  intros Hne. rewrite rank_candidates_run.
  destruct (loaded w) as [|item items] eqn:Hl; [done|]. rewrite <- Hl.
  eexists _, _. split; [done|].
  rewrite sort_reverse_perm, score_loop_filter. split; [done|].
  intros cid Hcid Hin. rewrite <- !list_fmap_compose in Hin.
  apply list_elem_of_fmap in Hin as (x & -> & Hx).
  rewrite sort_reverse_perm in Hx.
  apply list_elem_of_fmap in Hx as (y & -> & Hy).
  by apply list_elem_of_filter in Hy as [Hy _].
Qed.

Lemma rank_candidates_skips_stale_witness :
  3%Z ∈ (loaded Example.stale_entry).*1 ∧
  ∃ t res,
    Example.rank Example.stale_entry Example.job = (t, inr res) ∧
    3%Z ∉ res.*1.*1.
Proof.
  split; [by vm_compute; left|].
  assert (loaded Example.stale_entry ≠ []) as Hne by (by vm_compute).
  destruct (rank_candidates_skips_stale Example.stub_encode Example.stub_cosine
              Example.stale_entry Example.job Hne)
    as (t & res & Hrun & _ & Hst).
  exists t, res. split; [assumption|]. apply Hst.
  vm_compute. intros H. inversion H as [|? ? ? H']; subst. inversion H'.
Defined.

(** ** Bounds of the scores *)

(** The keyword score lies between 0 and 1. *)
Lemma keyword_matching_score_bounds (cv_text job_description : string) :
  0 <= keyword_matching_score cv_text job_description <= 1.
Proof.
  rewrite keyword_matching_score_unfold.
  destruct (decide _) as [|Hne]; [done|]. unfold jaccard.
  apply ratio_bounds.
  - apply intersection_le_union.
  - apply size_pos. by intros [_ ?]%empty_union_L.
Qed.

(** Weights between 0 and 1 that sum to 1 keep two scores of [0, 1] in
    [0, 1]. *)
Lemma combined_score_bounds (sw kw sem kws : Q) :
  0 <= sw → 0 <= kw → sw + kw == 1 →
  0 <= sem <= 1 → 0 <= kws <= 1 →
  0 <= combined_score sw kw sem kws <= 1.
Proof.
  unfold combined_score. intros Hsw Hkw Hsum [Hs0 Hs1] [Hk0 Hk1].
  split; nra.
Qed.

Section cosine_facts.
Import Cosine.
Local Open Scope R_scope.

(** Between two vectors of norm 1 the cosine is the dot product. *)
Lemma cosine_similarity_unit (a b : list R) :
  norm a = 1 → norm b = 1 → cosine_similarity a b = dot a b.
Proof. unfold cosine_similarity. intros -> ->. lra. Qed.

Lemma dot_cons x a y b : dot (x :: a) (y :: b) = x * y + dot a b.
Proof. done. Qed.

Lemma dot_self_nonneg a : 0 <= dot a a.
Proof.
  induction a as [|x a IH]; [unfold dot; simpl; lra|].
  rewrite dot_cons. nra.
Qed.

(** The Cauchy-Schwarz inequality, on the common prefix of the two rows. *)
Lemma cauchy_schwarz a b : dot a b * dot a b <= dot a a * dot b b.
Proof.
  revert b. induction a as [|x a IH]; intros [|y b].
  - unfold dot; simpl; lra.
  - unfold dot at 1 2 3; simpl. lra.
  - pose proof (dot_self_nonneg (x :: a)). unfold dot at 1 2 4. simpl. lra.
  - rewrite !dot_cons. specialize (IH b).
    pose proof (dot_self_nonneg a) as HA. pose proof (dot_self_nonneg b) as HB.
    set (A := dot a a) in *. set (B := dot b b) in *. set (C := dot a b) in *.
    destruct (Req_dec A 0) as [HA0|HA0].
    + assert (C = 0) by nra. nra.
    + assert (0 <= A * (x * x * B + y * y * A - 2 * x * y * C)) as H.
      { pose proof (Rle_0_sqr (y * A - x * C)) as Hsq. unfold Rsqr in Hsq.
        assert (0 <= x * x * (A * B - C * C)) by nra. nra. }
      assert (0 <= x * x * B + y * y * A - 2 * x * y * C) by nra.
      nra.
Qed.

(** What the cosine is bounded by: -1 and 1, not 0 and 1. *)
Lemma cosine_similarity_bounds a b :
  norm a ≠ 0 → norm b ≠ 0 → -1 <= cosine_similarity a b <= 1.
Proof.
  unfold cosine_similarity, norm. intros Ha Hb.
  pose proof (dot_self_nonneg a) as HA. pose proof (dot_self_nonneg b) as HB.
  pose proof (cauchy_schwarz a b) as HC.
  pose proof (sqrt_pos (dot a a)) as Hsa.
  pose proof (sqrt_pos (dot b b)) as Hsb.
  pose proof (sqrt_sqrt _ HA) as Hqa. pose proof (sqrt_sqrt _ HB) as Hqb.
  set (n := sqrt (dot a a) * sqrt (dot b b)).
  assert (0 < sqrt (dot a a)) as Hpa.
  { destruct Hsa as [?|Heq]; [done|]. by rewrite <- Heq in Ha. }
  assert (0 < sqrt (dot b b)) as Hpb.
  { destruct Hsb as [?|Heq]; [done|]. by rewrite <- Heq in Hb. }
  assert (0 < n) as Hn by (by apply Rmult_lt_0_compat).
  assert (dot a b * dot a b <= n * n) as Hle.
  { replace (n * n)
      with (sqrt (dot a a) * sqrt (dot a a) * (sqrt (dot b b) * sqrt (dot b b)))
      by (unfold n; ring).
    by rewrite Hqa, Hqb. }
  assert (dot a b / n * n = dot a b) as Hdiv by (field; apply Rgt_not_eq, Hn).
  assert (- n <= dot a b <= n) as [Hlo Hhi].
  { split; apply Rnot_lt_le; intros Hlt; nra. }
  split; apply (Rmult_le_reg_r n); try done; rewrite Hdiv; lra.
Qed.

(** C8 (the code departs from it).  [compute_similarity] is documented as
    a score between 0 and 1 and returns the plain cosine: for the opposite
    unit vectors (1, 0) and (-1, 0) it returns -1. *)
Theorem compute_similarity_opposite :
  compute_similarity cosine_similarity [1; 0] [-1; 0] = -1.
Proof.
  unfold compute_similarity, cosine_similarity, norm, dot. simpl.
  replace (1 * 1 + (0 * 0 + 0)) with 1 by lra.
  replace (-1 * -1 + (0 * 0 + 0)) with 1 by lra.
  rewrite sqrt_1. lra.
Qed.

(** The stub of the closed examples is that cosine: between rational
    vectors of norm 1, the rational dot product. *)
Lemma dot_Q2R (a b : list Q) :
  dot (Q2R <$> a) (Q2R <$> b) = Q2R (Example.stub_cosine a b).
Proof.
  revert b. induction a as [|x a IH]; intros [|y b];
    try (unfold dot, Example.stub_cosine, Q2R; simpl; lra).
  unfold dot, Example.stub_cosine in *. simpl.
  by rewrite Q2R_plus, Q2R_mult, IH.
Qed.

Lemma stub_cosine_is_cosine (a b : list Q) :
  (Example.stub_cosine a a == 1)%Q → (Example.stub_cosine b b == 1)%Q →
  cosine_similarity (Q2R <$> a) (Q2R <$> b) = Q2R (Example.stub_cosine a b).
Proof.
  intros Ha Hb. rewrite <- dot_Q2R. apply cosine_similarity_unit;
    unfold norm; rewrite dot_Q2R.
  - rewrite (Qeq_eqR _ _ Ha). unfold Q2R. simpl.
    replace (1 * / 1) with 1 by lra. apply sqrt_1.
  - rewrite (Qeq_eqR _ _ Hb). unfold Q2R. simpl.
    replace (1 * / 1) with 1 by lra. apply sqrt_1.
Qed.

Lemma example_vectors_unit :
  Forall (λ v, Example.stub_cosine v v == 1)%Q
         [[1; 0]; [0; 1]; [-1; 0]]%Q.
Proof. repeat constructor. Qed.
End cosine_facts.

(** In the rankers the score goes through unchanged: a stored vector
    opposite to the query has the semantic score -1, and under the default
    weights a negative combined score. *)
Lemma rank_candidates_negative_score :
  value (Example.rank Example.opposite Example.job)
  = [(1%Z, "Ada"%string, -1)] ∧
  ∃ kws comb,
    value (Example.hybrid Example.opposite Example.job 0.7 0.3)
    = [(1%Z, "Ada"%string, -1, kws, comb)] ∧ kws == 1 ∧ comb == -0.4.
Proof. split; [by vm_compute|]. eexists _, _. by vm_compute. Qed.

(** The validation only looks at the sum: the weights 2 and -1 pass, and
    then a semantic score of 1 gives the combined score 2. *)
Lemma hybrid_rank_weights_outside_unit :
  ∃ sem kws comb rest,
    value (Example.hybrid Example.two_candidates Example.job 2 (-1))
    = (2%Z, "Bob"%string, sem, kws, comb) :: rest ∧
    sem == 1 ∧ kws == 0 ∧ comb == 2.
Proof. eexists _, _, _, _. by vm_compute. Qed.

(** * Further properties *)

(** ** Keys and values of a dictionary *)

Section dict_keys.
Context {K V : Type} `{EqDecision K}.
Implicit Types (d l : list (K * V)).

Lemma dict_set_keys k v d :
  (dict_set k v d).*1 = if decide (k ∈ d.*1) then d.*1 else d.*1 ++ [k].
Proof.
  induction d as [|[k0 v0] d IH].
  - destruct (decide (k ∈ ([] : list (K * V)).*1)) as [Hin|]; [|done].
    by apply elem_of_nil in Hin.
  - cbn [dict_set]. rewrite (fmap_cons fst (k0, v0) d). cbn [fst].
    destruct (decide (k ∈ k0 :: d.*1)) as [Hin'|Hin'],
             (decide (k = k0)) as [->|Hne]; rewrite fmap_cons; cbn [fst].
    + done.
    + rewrite IH. apply elem_of_cons in Hin' as [?|Hin']; [done|].
      by rewrite decide_True.
    + exfalso. apply Hin'. by left.
    + rewrite IH. rewrite decide_False; [done|].
      intros ?. apply Hin'. by right.
Qed.

Lemma dict_set_NoDup k v d : NoDup d.*1 → NoDup (dict_set k v d).*1.
Proof.
  intros Hd. rewrite dict_set_keys. destruct (decide _) as [|Hk]; [done|].
  apply NoDup_app. split_and!; [done| |apply NoDup_singleton].
  intros x Hx ->%list_elem_of_singleton. done.
Qed.

Lemma dict_of_items_keys_NoDup l : NoDup (dict_of_items l).*1.
Proof.
  unfold dict_of_items.
  assert (∀ d, NoDup d.*1 →
    NoDup (foldl (λ d kv, dict_set kv.1 kv.2 d) d l).*1) as Hgen.
  { induction l as [|[k v] l IH]; intros d Hd; simpl; [done|].
    by apply IH, dict_set_NoDup. }
  apply Hgen. constructor.
Qed.
End dict_keys.

Section dict_more.
Context {K V : Type} `{EqDecision K}.
Implicit Types (d l : list (K * V)).

Lemma dict_get_Some_keys k d : is_Some (dict_get k d) ↔ k ∈ d.*1.
Proof.
  induction d as [|[k0 v0] d IH]; simpl.
  - rewrite elem_of_nil. split; [by intros [? ?]|done].
  - rewrite elem_of_cons, <- IH.
    destruct (decide (k = k0)); [|tauto]. split; eauto.
Qed.

Lemma dict_of_items_elem_of_keys k l : k ∈ (dict_of_items l).*1 ↔ k ∈ l.*1.
Proof. by rewrite <- dict_get_Some_keys, dict_of_items_is_Some. Qed.

Lemma dict_get_NoDup k v d : NoDup d.*1 → (k, v) ∈ d → dict_get k d = Some v.
Proof.
  induction d as [|[k0 v0] d IH]; simpl; intros Hnd Hin.
  - by apply elem_of_nil in Hin.
  - apply NoDup_cons in Hnd as [Hk0 Hnd].
    apply elem_of_cons in Hin as [[= -> ->]|Hin].
    + by rewrite decide_True.
    + rewrite decide_False; [by apply IH|].
      intros ->. apply Hk0. apply list_elem_of_fmap. by exists (k0, v).
Qed.

Lemma dict_set_values (P : V → Prop) k v d :
  P v → Forall (λ kv, P kv.2) d → Forall (λ kv, P kv.2) (dict_set k v d).
Proof.
  intros Hv. induction 1 as [|[k0 v0] d Hx Hd IH]; simpl.
  - by repeat constructor.
  - destruct (decide (k = k0)); by constructor.
Qed.

Lemma dict_of_items_values (P : V → Prop) l :
  Forall (λ kv, P kv.2) l → Forall (λ kv, P kv.2) (dict_of_items l).
Proof.
  unfold dict_of_items.
  assert (∀ d, Forall (λ kv, P kv.2) d → Forall (λ kv, P kv.2) l →
    Forall (λ kv, P kv.2) (foldl (λ d kv, dict_set kv.1 kv.2 d) d l)) as Hgen.
  { induction l as [|[k v] l IH]; intros d Hd Hl; simpl; [done|].
    apply Forall_cons in Hl as [Hv Hl]. by apply IH; [apply dict_set_values|]. }
  intros Hl. by apply Hgen.
Qed.
End dict_more.

Lemma dict_of_items_same_keys {K V V'} `{EqDecision K}
    (l : list (K * V)) (l' : list (K * V')) :
  l.*1 = l'.*1 → (dict_of_items l).*1 = (dict_of_items l').*1.
Proof.
  unfold dict_of_items.
  assert (∀ (d : list (K * V)) (d' : list (K * V')),
    d.*1 = d'.*1 → l.*1 = l'.*1 →
    (foldl (λ d kv, dict_set kv.1 kv.2 d) d l).*1
    = (foldl (λ d kv, dict_set kv.1 kv.2 d) d' l').*1) as Hgen.
  { revert l'. induction l as [|[k v] l IH]; intros [|[k' v'] l'] d d' Hd Hl;
      simpl in *; try done.
    injection Hl as -> Hl. apply IH; [|done].
    by rewrite !dict_set_keys, Hd. }
  intros Hl. by apply Hgen.
Qed.

(** ** The two rankings *)

Section ranking_more.
Context {Vec : Type}.
Context (encode : string → Vec) (cosine_similarity : Vec → Vec → Q).
Implicit Types (w : world Vec).

Lemma loaded_NoDup w : NoDup (loaded w).*1.
Proof.
  rewrite loaded_file. destruct (embeddings_file w).
  - apply dict_of_items_keys_NoDup.
  - constructor.
Qed.

Lemma value_rank_candidates w q :
  value (rank_candidates encode cosine_similarity w q) =
    sort_reverse (λ x, x.2)
      (score_loop cosine_similarity (encode q) (names w) (loaded w)).
Proof.
  unfold value. rewrite rank_candidates_run. by destruct (loaded w).
Qed.

Lemma value_hybrid_rank w q sw kw :
  Qabs (sw + kw - 1.0) <= 0.01 →
  value (hybrid_rank encode cosine_similarity w q sw kw) =
    sort_reverse (λ x, x.2)
      (omap (hybrid_tuple w q sw kw)
            (value (rank_candidates encode cosine_similarity w q))).
Proof.
  intros Hw. unfold value at 1 2. rewrite hybrid_rank_run by done.
  by destruct (rank_candidates encode cosine_similarity w q).2.
Qed.

Lemma hybrid_ids (l : list (Z * string * Q * Q * Q)) :
  l.*1.*1.*1.*1 = (semantic_part <$> l).*1.*1.
Proof. by rewrite <- !list_fmap_compose. Qed.

Lemma full_text_of_is_Some w cid :
  cid ∈ candidate_ids w → is_Some (full_text_of w cid).
Proof.
  unfold candidate_ids, full_text_of.
  intros (r & -> & Hr)%list_elem_of_fmap.
  destruct (find _ (candidates w)) as [r'|] eqn:Hfind; [by eexists|].
  apply list_elem_of_In in Hr. apply (find_none _ _ Hfind r) in Hr.
  by apply bool_decide_eq_false in Hr.
Qed.

Lemma ranked_in_store w q x :
  x ∈ value (rank_candidates encode cosine_similarity w q) →
  x.1.1 ∈ candidate_ids w.
Proof.
  rewrite value_rank_candidates, sort_reverse_perm, score_loop_filter.
  intros (item & -> & Hitem)%list_elem_of_fmap.
  by apply list_elem_of_filter in Hitem as [Hitem _].
Qed.

Lemma hybrid_tuples_all w q sw kw (sem : list (Z * string * Q)) :
  (∀ x, x ∈ sem → is_Some (full_text_of w x.1.1)) →
  semantic_part <$> omap (hybrid_tuple w q sw kw) sem = sem.
Proof.
  induction sem as [|[[cid name] s] sem IH]; intros Hall; [done|].
  cbn [omap list_omap]. rewrite hybrid_tuple_unfold.
  destruct (Hall (cid, name, s)) as [text Htext]; [by left|].
  simpl in Htext. rewrite Htext. rewrite fmap_cons. f_equal.
  apply IH. intros x Hx. apply Hall. by right.
Qed.

Lemma descending_combined sw (l : list (Z * string * Q * Q * Q)) :
  0 <= sw →
  (∀ x, x ∈ l → x.2 == sw * (semantic_part x).2) →
  descending snd (semantic_part <$> l) → descending snd l.
Proof.
  intros Hsw. unfold descending.
  induction l as [|x l IH]; intros Hkey Hd; [constructor|].
  rewrite fmap_cons in Hd. apply StronglySorted_inv in Hd as [Hd Hx].
  constructor.
  - apply IH; [|done]. intros y Hy. apply Hkey. by right.
  - apply Forall_forall. intros y Hy.
    assert (semantic_part y ∈ semantic_part <$> l) as Hy'.
    { apply list_elem_of_fmap. by exists y. }
    rewrite (Hkey x) by (by left). rewrite (Hkey y) by (by right).
    apply (proj1 (Forall_forall _ _) Hx (semantic_part y)) in Hy'.
    nra.
Qed.

Lemma sort_reverse_descending_id {A} (key : A → Q) (l : list A) :
  descending key l → sort_reverse key l = l.
Proof. intros Hd. symmetry. by apply sort_reverse_unique. Qed.

(** X2.  No ranking lists a candidate twice, whatever the archive holds. *)
Theorem rankings_list_candidates_once w q sw kw :
  NoDup (value (rank_candidates encode cosine_similarity w q)).*1.*1 ∧
  NoDup (value (hybrid_rank encode cosine_similarity w q sw kw)).*1.*1.*1.*1.
Proof.
  assert (NoDup (value (rank_candidates encode cosine_similarity w q)).*1.*1)
    as Hsem.
  { rewrite value_rank_candidates, sort_reverse_perm.
    eapply sublist_NoDup; [apply loaded_NoDup|apply score_loop_ids]. }
  split; [done|].
  destruct (Qlt_le_dec 0.01 (Qabs (sw + kw - 1.0))) as [Hw|Hw].
  { unfold value. rewrite hybrid_rank_invalid by done. constructor. }
  rewrite hybrid_ids, value_hybrid_rank, sort_reverse_perm by done.
  eapply sublist_NoDup; [exact Hsem|].
  do 2 apply fmap_sublist. apply hybrid_tuples_semantic.
Qed.

(** X3.  With valid weights the hybrid ranking ranks exactly the candidates
    of the semantic ranking, each with its semantic score: the text lookup
    drops none of them. *)
Theorem hybrid_rank_keeps_semantic_results w q sw kw :
  Qabs (sw + kw - 1.0) <= 0.01 →
  semantic_part <$> value (hybrid_rank encode cosine_similarity w q sw kw)
  ≡ₚ value (rank_candidates encode cosine_similarity w q).
Proof.
  intros Hw. rewrite value_hybrid_rank, sort_reverse_perm by done.
  rewrite hybrid_tuples_all; [done|].
  intros x Hx. by apply full_text_of_is_Some, (ranked_in_store w q).
Qed.

(** X4.  With no weight on the keywords the hybrid ranking is the semantic
    ranking, in the same order. *)
Theorem hybrid_rank_semantic_only w q sw :
  Qabs (sw + 0 - 1.0) <= 0.01 →
  semantic_part <$> value (hybrid_rank encode cosine_similarity w q sw 0)
  = value (rank_candidates encode cosine_similarity w q).
Proof.
  intros Hw. rewrite value_hybrid_rank by done.
  set (sem := value (rank_candidates encode cosine_similarity w q)).
  assert (semantic_part <$> omap (hybrid_tuple w q sw 0) sem = sem) as Hall.
  { apply hybrid_tuples_all. intros x Hx.
    by apply full_text_of_is_Some, (ranked_in_store w q). }
  rewrite sort_reverse_descending_id; [done|].
  apply (descending_combined sw).
  - apply Qabs_Qle_condition in Hw. lra.
  - intros x (y & Hy & Hx)%list_elem_of_omap.
    destruct y as [[cid name] s]. rewrite hybrid_tuple_unfold in Hx.
    destruct (full_text_of w cid); [|done]. injection Hx as <-.
    unfold combined_score. simpl. lra.
  - rewrite Hall. unfold sem. rewrite value_rank_candidates.
    apply (sort_reverse_descending snd).
Qed.

(** X5.  With valid weights and nothing loaded, [hybrid_rank] ends in the
    error of the semantic step, before any text lookup. *)
Theorem hybrid_rank_no_embeddings w q sw kw :
  Qabs (sw + kw - 1.0) <= 0.01 → loaded w = [] →
  hybrid_rank encode cosine_similarity w q sw kw
  = ([Encode q; ReadEmbeddingsFile], inl NoEmbeddingsError).
Proof.
  intros Hw Hl. rewrite hybrid_rank_run by done.
  rewrite rank_candidates_run, Hl. done.
Qed.
End ranking_more.

(** ** The precompute *)

Section precompute_more.
Context {Vec : Type}.
Context (encode : string → Vec) (cosine_similarity : Vec → Vec → Q).
Implicit Types (w : world Vec).

(** X6.  On an empty candidate table [precompute_all_embeddings] only runs
    its SELECT: it encodes nothing, writes no file, raises nothing and
    leaves everything as it was. *)
Theorem precompute_all_embeddings_no_candidates model w :
  candidates w = [] →
  precompute_all_embeddings encode model w = ([SelectCandidates], inr w).
Proof.
  intros Hc. unfold precompute_all_embeddings, perform, bind.
  by rewrite Hc.
Qed.

Lemma score_loop_all e (rows : list (Z * string * string)) nm :
  (∀ r, r ∈ rows → dict_get r.1.1 nm = Some r.1.2) →
  score_loop cosine_similarity e nm ((λ r, (r.1.1, encode r.2)) <$> rows)
  = (λ r, (r.1.1, r.1.2, cosine_similarity e (encode r.2))) <$> rows.
Proof.
  induction rows as [|r rows IH]; intros Hnm; [done|].
  rewrite !fmap_cons. cbn [score_loop]. rewrite (Hnm r) by left.
  unfold compute_similarity. f_equal. apply IH.
  intros r' Hr'. apply Hnm. by right.
Qed.

(** A ranking over the files that a precompute writes. *)
Lemma rank_after_precompute model w q :
  candidates w ≠ [] → NoDup (candidate_ids w) →
  ∃ res,
    rank_candidates encode cosine_similarity
      (World (candidates w) (cv_embeddings w)
         (Some (dict_of_items ((λ r, (r.1.1, encode r.2)) <$> candidates w)))
         (Some (dict_of_items ((λ r, (r.1.1, model)) <$> candidates w)))) q
    = ([Encode q; ReadEmbeddingsFile; SelectNames], inr res) ∧
    res ≡ₚ (λ r, (r.1.1, r.1.2,
                  cosine_similarity (encode q) (encode r.2)))
           <$> candidates w.
Proof.
  intros Hne Hnd.
  set (w' := World (candidates w) (cv_embeddings w) _ _).
  assert (loaded w' = (λ r, (r.1.1, encode r.2)) <$> candidates w) as Hl.
  { rewrite loaded_file. unfold w'. cbn [embeddings_file].
    assert (NoDup ((λ r, (r.1.1, encode r.2)) <$> candidates w).*1) as Hnd'.
    { by rewrite <- list_fmap_compose. }
    rewrite (dict_of_items_NoDup (_ <$> candidates w)) by done.
    by apply dict_of_items_NoDup. }
  assert (names w' = (λ r, (r.1.1, r.1.2)) <$> candidates w) as Hn.
  { unfold names, w'. cbn [candidates]. apply dict_of_items_NoDup.
    by rewrite <- list_fmap_compose. }
  exists (sort_reverse (λ x, x.2)
            (score_loop cosine_similarity (encode q) (names w') (loaded w'))).
  split.
  - rewrite rank_candidates_run, Hl.
    destruct (candidates w); [done|]. by rewrite fmap_cons.
  - rewrite sort_reverse_perm, Hl, score_loop_all; [done|].
    intros r Hr. rewrite Hn. apply dict_get_NoDup.
    + by rewrite <- list_fmap_compose.
    + apply list_elem_of_fmap. by exists r.
Qed.

(** X7.  After a precompute over distinct candidate ids a ranking holds
    every candidate of the store exactly once, scored by the cosine of the
    encoded query and the candidate's encoded full text. *)
Theorem precompute_then_rank model w q :
  candidates w ≠ [] → NoDup (candidate_ids w) →
  ∃ t w' t' res,
    precompute_all_embeddings encode model w = (t, inr w') ∧
    rank_candidates encode cosine_similarity w' q = (t', inr res) ∧
    res ≡ₚ (λ r, (r.1.1, r.1.2,
                  cosine_similarity (encode q) (encode r.2)))
           <$> candidates w.
Proof.
  intros Hne Hnd.
  destruct (rank_after_precompute model w q Hne Hnd) as (res & Hrank & Hperm).
  eexists _, _, _, res. split; [by apply precompute_all_embeddings_run|].
  by split.
Qed.

(** X8.  What a precompute leaves on disk: one array per distinct candidate
    id, a metadata entry under each of the same keys, in the same order,
    each naming the model; the tables are untouched. *)
Theorem precompute_all_embeddings_files model w :
  candidates w ≠ [] →
  ∃ t w' emb meta,
    precompute_all_embeddings encode model w = (t, inr w') ∧
    embeddings_file w' = Some emb ∧ metadata_file w' = Some meta ∧
    NoDup emb.*1 ∧ (∀ cid, cid ∈ emb.*1 ↔ cid ∈ candidate_ids w) ∧
    meta.*1 = emb.*1 ∧ Forall (λ kv, kv.2 = model) meta ∧
    candidates w' = candidates w ∧ cv_embeddings w' = cv_embeddings w.
Proof.
  intros Hne. rewrite precompute_all_embeddings_run by done.
  eexists _, _, _, _. split_and!; try done.
  - apply dict_of_items_keys_NoDup.
  - intros cid. rewrite dict_of_items_elem_of_keys.
    by rewrite <- list_fmap_compose.
  - apply dict_of_items_same_keys. by rewrite <- !list_fmap_compose.
  - apply (dict_of_items_values (λ v, v = model)).
    by apply Forall_fmap, Forall_true.
Qed.
End precompute_more.

(** ** The keyword score *)

Section keyword_more.
Implicit Types X Y : gset string.

Lemma ratio_eq_1 (i u : nat) :
  (0 < u)%nat →
  inject_Z (Z.of_nat i) / inject_Z (Z.of_nat u) == 1 ↔ i = u.
Proof.
  intros Hu.
  assert (¬ inject_Z (Z.of_nat u) == 0) as Hne.
  { change 0 with (inject_Z 0). rewrite inject_Z_injective. lia. }
  split.
  - intros H. apply Nat2Z.inj, inject_Z_injective.
    rewrite <- (Qmult_1_l (inject_Z (Z.of_nat u))), <- H.
    field. done.
  - intros ->. by apply ratio_self.
Qed.

Lemma ratio_eq_0 (i u : nat) :
  (0 < u)%nat →
  inject_Z (Z.of_nat i) / inject_Z (Z.of_nat u) == 0 ↔ i = 0%nat.
Proof.
  intros Hu.
  assert (¬ inject_Z (Z.of_nat u) == 0) as Hne.
  { change 0 with (inject_Z 0). rewrite inject_Z_injective. lia. }
  split.
  - intros H. apply Nat2Z.inj, inject_Z_injective.
    change (inject_Z (Z.of_nat 0)) with 0.
    rewrite <- (Qmult_0_l (inject_Z (Z.of_nat u))), <- H.
    field. done.
  - intros ->. apply ratio_zero.
Qed.

Lemma union_pos X Y : Y ≠ ∅ → (0 < size (X ∪ Y))%nat.
Proof. intros HY. apply size_pos. by intros [_ ?]%empty_union_L. Qed.

(** X9.  The keyword score is 1 exactly when the two texts have the same
    keywords and at least one. *)
Theorem keyword_matching_score_one (cv_text job_description : string) :
  keyword_matching_score cv_text job_description == 1 ↔
    extract_keywords cv_text = extract_keywords job_description ∧
    extract_keywords job_description ≠ ∅.
Proof.
  rewrite keyword_matching_score_unfold.
  set (X := extract_keywords cv_text).
  set (Y := extract_keywords job_description).
  destruct (decide (Y = ∅)) as [HY|HY].
  { split; [by intros ?|]. by intros [_ ?]. }
  unfold jaccard. rewrite ratio_eq_1 by by apply union_pos. split.
  - intros Hsize. split; [|done].
    assert (X ∩ Y ≡ X ∪ Y) as Heq.
    { apply set_subseteq_size_equiv; [|lia].
      etrans; [apply intersection_subseteq_l|apply union_subseteq_l]. }
    apply leibniz_equiv. intros x. split; intros Hx.
    + assert (x ∈ X ∩ Y) as Hxy by (apply Heq, elem_of_union; by left).
      by apply elem_of_intersection in Hxy as [_ ?].
    + assert (x ∈ X ∩ Y) as Hxy by (apply Heq, elem_of_union; by right).
      by apply elem_of_intersection in Hxy as [? _].
  - intros [-> _]. by rewrite (idemp_L (∩) Y), (idemp_L (∪) Y).
Qed.

(** X10.  The keyword score is 0 exactly when the two texts share no
    keyword. *)
Theorem keyword_matching_score_zero (cv_text job_description : string) :
  keyword_matching_score cv_text job_description == 0 ↔
    extract_keywords cv_text ∩ extract_keywords job_description = ∅.
Proof.
  rewrite keyword_matching_score_unfold.
  set (X := extract_keywords cv_text).
  set (Y := extract_keywords job_description).
  destruct (decide (Y = ∅)) as [HY|HY].
  { rewrite HY, intersection_empty_r_L. done. }
  unfold jaccard. rewrite ratio_eq_0 by by apply union_pos.
  rewrite size_empty_iff. by unfold_leibniz.
Qed.
End keyword_more.

(** ** Keywords of a text *)

Section keyword_texts.
Import Text.

Lemma elem_of_extract_keywords text t :
  t ∈ extract_keywords text ↔ whole_word_run text t.
Proof.
  unfold extract_keywords, whole_word_run.
  rewrite elem_of_list_to_set, list_elem_of_fmap. split.
  - intros (tok & -> & Htok%TextFacts.findall_spec).
    by rewrite list_ascii_of_string_of_list_ascii.
  - intros Hrun%TextFacts.findall_spec.
    exists (list_ascii_of_string t).
    by rewrite string_of_list_ascii_of_string.
Qed.

Lemma list_ascii_of_string_app a b :
  list_ascii_of_string (a +:+ b)
  = list_ascii_of_string a ++ list_ascii_of_string b.
Proof. induction a as [|c a IH]; simpl; [done|]. by rewrite IH. Qed.

Lemma str_lower_chars text :
  list_ascii_of_string (str_lower text) = lower (list_ascii_of_string text).
Proof. apply list_ascii_of_string_of_list_ascii. Qed.

Lemma run_in_sep letter glue (la lb : list ascii) sep t :
  glue sep = false → letter sep = false →
  run_in letter glue (la ++ sep :: lb) t ↔
    run_in letter glue la t ∨ run_in letter glue lb t.
Proof.
  intros Hg Hl. unfold run_in. split.
  - intros (pre & post & Hs & H3 & Hall & Hpre & Hpost).
    assert (sep ∉ t) as Hsep.
    { intros Hin. apply (proj1 (Forall_forall _ _) Hall) in Hin. congruence. }
    apply app_eq_inv in Hs as [(k & -> & Hrest)|(k & -> & Hrest)].
    + left. apply app_eq_inv in Hrest as [(k' & -> & Hsb)|(k' & -> & ->)].
      * destruct k' as [|c k'].
        -- exists pre, []. rewrite !app_nil_r in *. by split_and!.
        -- injection Hsb as <- _. exfalso. apply Hsep.
           apply elem_of_app. right. by left.
      * exists pre, k'. split_and!; try done.
        rewrite head_app in Hpost. by destruct (head k').
    + right. destruct k as [|c k].
      * destruct t as [|c t]; [simpl in H3; lia|].
        injection Hrest as <- _. exfalso. apply Hsep. by left.
      * injection Hrest as <- ->. exists k, post. split_and!; try done.
        rewrite last_app_cons in Hpre.
        destruct k as [|d k]; [done|]. by rewrite last_cons_cons in Hpre.
  - intros [(pre & post & -> & H3 & Hall & Hpre & Hpost)
           |(pre & post & -> & H3 & Hall & Hpre & Hpost)].
    + exists pre, (post ++ sep :: lb). split_and!; try done.
      * by rewrite <- !app_assoc.
      * rewrite head_app. destruct (head post); [done|]. simpl. done.
    + exists (la ++ sep :: pre), post. split_and!; try done.
      * by rewrite <- app_assoc.
      * rewrite last_app_cons.
        destruct pre as [|d pre]; [done|]. by rewrite last_cons_cons.
Qed.

Lemma is_word_upper c : is_word c = false → is_upper c = false.
Proof.
  unfold is_word, is_alpha. destruct (is_upper c); [|done].
  by rewrite orb_true_r.
Qed.

Lemma is_word_lower c : is_word c = false → is_lower c = false.
Proof. unfold is_word, is_alpha. by destruct (is_lower c). Qed.

(** X11.  In an ASCII text a character that is no letter, digit or
    underscore separates keywords: the keywords of two texts joined by it
    are the keywords of the one and of the other. *)
Theorem extract_keywords_separator (a b : string) (sep : ascii) :
  ascii_text (a +:+ String sep b) = true →
  is_word sep = false →
  extract_keywords (a +:+ String sep b)
  = extract_keywords a ∪ extract_keywords b.
Proof.
  intros _ Hsep. apply set_eq. intros t.
  rewrite elem_of_union, !elem_of_extract_keywords. unfold whole_word_run.
  rewrite list_ascii_of_string_app. cbn [list_ascii_of_string].
  unfold lower. rewrite fmap_app, fmap_cons.
  assert (lower_char sep = sep) as ->.
  { unfold lower_char. by rewrite is_word_upper. }
  apply run_in_sep; [done|by apply is_word_lower].
Qed.

Lemma extract_keywords_separator_witness :
  extract_keywords "python developer" 
  = extract_keywords "python" ∪ extract_keywords "developer".
Proof.
  apply (extract_keywords_separator "python" "developer" " ");
    reflexivity.
Defined.
End keyword_texts.

(** ** Instances on the examples *)

Lemma precompute_all_embeddings_no_candidates_witness :
  precompute_all_embeddings Example.stub_encode Example.model_name Sample.empty
  = ([SelectCandidates], inr Sample.empty).
Proof.
  apply (precompute_all_embeddings_no_candidates Example.stub_encode
           Example.model_name Sample.empty).
  reflexivity.
Defined.

Lemma precompute_all_embeddings_loaded_witness :
  ∃ t w',
    precompute_all_embeddings Example.stub_encode Example.model_name
                              Example.fresh = (t, inr w') ∧
    loaded w' = [(1%Z, [1; 0])].
Proof.
  apply (precompute_all_embeddings_loaded Example.stub_encode
           Example.model_name Example.fresh).
  - discriminate.
  - vm_compute. repeat constructor. intros H. inversion H.
Defined.

Lemma precompute_all_embeddings_files_witness :
  ∃ t w' emb meta,
    precompute_all_embeddings Example.stub_encode Example.model_name
                              Example.fresh = (t, inr w') ∧
    embeddings_file w' = Some emb ∧ metadata_file w' = Some meta ∧
    meta.*1 = emb.*1.
Proof.
  destruct (precompute_all_embeddings_files Example.stub_encode
              Example.model_name Example.fresh)
    as (t & w' & emb & meta & Hrun & Hemb & Hmeta & _ & _ & Hkeys & _).
  - discriminate.
  - by exists t, w', emb, meta.
Defined.

Lemma precompute_then_rank_witness :
  ∃ t w' t' res,
    precompute_all_embeddings Example.stub_encode Example.model_name
                              Example.fresh = (t, inr w') ∧
    Example.rank w' Example.job = (t', inr res) ∧
    res ≡ₚ [(1%Z, "Ada"%string, Example.stub_cosine [1; 0] [1; 0])].
Proof.
  apply (precompute_then_rank Example.stub_encode Example.stub_cosine
           Example.model_name Example.fresh Example.job).
  - discriminate.
  - vm_compute. repeat constructor. intros H. inversion H.
Defined.

Lemma hybrid_rank_keeps_semantic_results_witness :
  semantic_part <$> value (Example.hybrid Example.two_candidates Example.job
                                           0.7 0.3)
  ≡ₚ value (Example.rank Example.two_candidates Example.job).
Proof.
  apply (hybrid_rank_keeps_semantic_results Example.stub_encode
           Example.stub_cosine Example.two_candidates Example.job 0.7 0.3).
  by vm_compute.
Defined.

Lemma hybrid_rank_semantic_only_witness :
  semantic_part <$> value (Example.hybrid Example.two_candidates Example.job
                                           1 0)
  = value (Example.rank Example.two_candidates Example.job).
Proof.
  apply (hybrid_rank_semantic_only Example.stub_encode
           Example.stub_cosine Example.two_candidates Example.job 1).
  by vm_compute.
Defined.

Lemma hybrid_rank_no_embeddings_witness :
  Example.hybrid Example.fresh Example.job 0.7 0.3
  = ([Encode Example.job; ReadEmbeddingsFile], inl NoEmbeddingsError).
Proof.
  apply (hybrid_rank_no_embeddings Example.stub_encode
           Example.stub_cosine Example.fresh Example.job 0.7 0.3).
  - by vm_compute.
  - reflexivity.
Defined.

(** ** The similarity *)

Section cosine_more.
Import Cosine.
Local Open Scope R_scope.

Lemma dot_comm a b : dot a b = dot b a.
Proof.
  revert b. induction a as [|x a IH]; intros [|y b]; try done.
  rewrite !dot_cons, IH. lra.
Qed.

Lemma norm_unit_x : norm [1; 0] = 1.
Proof.
  unfold norm, dot. simpl.
  replace (1 * 1 + (0 * 0 + 0)) with 1 by lra. apply sqrt_1.
Qed.

(** X12.  A vector of non-zero norm has similarity 1 with itself. *)
Theorem compute_similarity_self a :
  norm a ≠ 0 → compute_similarity cosine_similarity a a = 1.
Proof.
  unfold compute_similarity, cosine_similarity, norm. intros Ha.
  rewrite sqrt_sqrt by apply dot_self_nonneg.
  apply Rdiv_diag. intros H0. apply Ha. rewrite H0. apply sqrt_0.
Qed.

Lemma compute_similarity_self_witness :
  compute_similarity cosine_similarity [1; 0] [1; 0] = 1.
Proof.
  apply (compute_similarity_self [1; 0]). rewrite norm_unit_x. lra.
Defined.

(** X13.  The similarity of two vectors does not depend on their order. *)
Theorem compute_similarity_symmetric a b :
  compute_similarity cosine_similarity a b
  = compute_similarity cosine_similarity b a.
Proof.
  unfold compute_similarity, cosine_similarity.
  rewrite (dot_comm a b). f_equal. apply Rmult_comm.
Qed.
End cosine_more.

(** ** Strings *)

Module StrFacts.
Import Str.

Lemma starts_with_spec s p :
  starts_with s p = true ↔ ∃ post, s = p ++ post.
Proof.
  revert s. induction p as [|c p IH]; intros s; simpl.
  { split; [by exists s|by destruct s]. }
  destruct s as [|d s]; cbn [starts_with].
  { split; [done|]. by intros [post ?]. }
  rewrite andb_true_iff, bool_decide_eq_true, IH. split.
  - intros [-> [post ->]]. by exists post.
  - intros [post [= -> ->]]. split; [done|]. by exists post.
Qed.

Lemma contains_spec s p :
  contains s p = true ↔ ∃ pre post, s = pre ++ p ++ post.
Proof.
  induction s as [|d s IH].
  - cbn [contains]. rewrite orb_false_r, starts_with_spec. split.
    + intros [post ->]. by exists [], post.
    + intros (pre & post & H). symmetry in H.
      apply app_eq_nil in H as [-> H]. by exists post.
  - cbn [contains]. rewrite orb_true_iff, starts_with_spec, IH. split.
    + intros [[post ->]|(pre & post & ->)].
      * by exists [], post.
      * by exists (d :: pre), post.
    + intros ([|c pre] & post & H).
      * left. by exists post.
      * right. injection H as -> ->. by exists pre, post.
Qed.

Lemma split_no_sep sep a : sep ∉ a → split sep a = [a].
Proof.
  induction a as [|c a IH]; [done|]. intros Hnot.
  apply not_elem_of_cons in Hnot as [Hc Ha]. cbn [split].
  rewrite decide_False by done. by rewrite IH.
Qed.

Lemma split_app sep a rest :
  sep ∉ a → split sep (a ++ sep :: rest) = a :: split sep rest.
Proof.
  induction a as [|c a IH]; intros Hnot.
  - cbn [app split]. by rewrite decide_True.
  - apply not_elem_of_cons in Hnot as [Hc Ha]. cbn [app split].
    rewrite decide_False by done. by rewrite IH.
Qed.

Lemma split_not_nil sep s : split sep s ≠ [].
Proof.
  destruct s as [|c s]; [done|]. cbn [split].
  by destruct (decide _), (split sep s).
Qed.

Lemma split_pad sep pad s :
  sep ∉ pad →
  split sep (pad ++ s)
  = match split sep s with
    | part :: parts => (pad ++ part) :: parts
    | [] => [pad]
    end.
Proof.
  induction pad as [|c pad IH]; intros Hpad.
  - pose proof (split_not_nil sep s). simpl. by destruct (split sep s).
  - apply not_elem_of_cons in Hpad as [Hc Hpad]. cbn [app split].
    rewrite decide_False by done. rewrite IH by done.
    by destruct (split sep s).
Qed.

(** Splitting at [sep] what was joined with [sep] and some padding gives the
    parts back, all but the first behind the padding. *)
Lemma split_join sep pad k ks :
  Forall (λ part, sep ∉ part) (k :: ks) → sep ∉ pad →
  split sep (join (sep :: pad) (k :: ks)) = k :: ((pad ++.) <$> ks).
Proof.
  revert k. induction ks as [|k' ks IH]; intros k Hall Hpad.
  - apply Forall_cons in Hall as [Hk _]. by apply split_no_sep.
  - apply Forall_cons in Hall as [Hk Hall].
    change (join (sep :: pad) (k :: k' :: ks))
      with (k ++ sep :: (pad ++ join (sep :: pad) (k' :: ks))).
    rewrite split_app by done. f_equal.
    by rewrite split_pad, IH.
Qed.

Lemma lstrip_pad pad s :
  Forall (λ c, is_space c = true) pad → lstrip (pad ++ s) = lstrip s.
Proof. induction 1 as [|c pad Hc _ IH]; [done|]. simpl. by rewrite Hc. Qed.

Lemma strip_pad pad s :
  Forall (λ c, is_space c = true) pad → strip (pad ++ s) = strip s.
Proof. intros Hpad. unfold strip. by rewrite lstrip_pad. Qed.

End StrFacts.

(** ** The skills of a text *)

Section skills_facts.
Import Str StrFacts.

Lemma str_lower_app a b : str_lower (a +:+ b) = str_lower a +:+ str_lower b.
Proof.
  unfold str_lower. rewrite list_ascii_of_string_app.
  unfold Text.lower. rewrite fmap_app.
  generalize (Text.lower_char <$> list_ascii_of_string a).
  intros l. induction l as [|c l IH]; simpl; [done|]. by rewrite IH.
Qed.

Lemma string_of_list_ascii_app l k :
  string_of_list_ascii (l ++ k)
  = string_of_list_ascii l +:+ string_of_list_ascii k.
Proof. induction l as [|c l IH]; simpl; [done|]. by rewrite IH. Qed.

(** [in] on strings: the pattern has something before it and something
    behind it. *)
Lemma str_contains_spec s p :
  str_contains s p = true ↔ ∃ pre post, s = pre +:+ p +:+ post.
Proof.
  unfold str_contains. rewrite contains_spec. split.
  - intros (pre & post & H).
    exists (string_of_list_ascii pre), (string_of_list_ascii post).
    rewrite <- (string_of_list_ascii_of_string s), H.
    by rewrite !string_of_list_ascii_app, string_of_list_ascii_of_string.
  - intros (pre & post & ->).
    exists (list_ascii_of_string pre), (list_ascii_of_string post).
    by rewrite !list_ascii_of_string_app.
Qed.

Lemma str_lower_app_inv text a b :
  str_lower text = a +:+ b →
  ∃ a' b', text = a' +:+ b' ∧ str_lower a' = a ∧ str_lower b' = b.
Proof.
  intros H. apply (f_equal list_ascii_of_string) in H.
  rewrite str_lower_chars, list_ascii_of_string_app in H.
  apply fmap_app_inv in H as (l1 & l2 & H1 & H2 & H).
  exists (string_of_list_ascii l1), (string_of_list_ascii l2).
  unfold str_lower. rewrite !list_ascii_of_string_of_list_ascii.
  unfold Text.lower. rewrite <- H1, <- H2, !string_of_list_ascii_of_string.
  split; [|done].
  by rewrite <- (string_of_list_ascii_of_string text), H,
    string_of_list_ascii_app.
Qed.

(** No keyword, and not the default either, has a comma in it or white
    space around it. *)
Lemma skill_keywords_plain :
  Forall (λ k, (","%char ∉ list_ascii_of_string k) ∧
               strip (list_ascii_of_string k) = list_ascii_of_string k)
         ("Not specified"%string :: skill_keywords).
Proof. by apply (bool_decide_unpack _); vm_compute. Qed.

Lemma found_skills_keywords text : found_skills text ⊆ skill_keywords.
Proof. intros k Hk. by apply list_elem_of_filter in Hk as [_ ?]. Qed.

Lemma found_skills_plain text :
  Forall (λ k, (","%char ∉ list_ascii_of_string k) ∧
               strip (list_ascii_of_string k) = list_ascii_of_string k)
         (found_skills text).
Proof.
  pose proof skill_keywords_plain as Hplain.
  apply Forall_cons in Hplain as [_ Hplain].
  rewrite Forall_forall in Hplain. apply Forall_forall.
  intros k Hk. by apply Hplain, (found_skills_keywords text k).
Qed.

Lemma str_strip_plain k :
  strip (list_ascii_of_string k) = list_ascii_of_string k →
  str_strip (string_of_list_ascii (list_ascii_of_string k)) = k.
Proof.
  intros H. unfold str_strip.
  by rewrite list_ascii_of_string_of_list_ascii, H,
    string_of_list_ascii_of_string.
Qed.

(** The list that [insert_candidate] splits out of a joined list of plain
    names is that list. *)
Lemma str_split_join (ks : list string) :
  ks ≠ [] →
  Forall (λ k, (","%char ∉ list_ascii_of_string k) ∧
               strip (list_ascii_of_string k) = list_ascii_of_string k) ks →
  str_strip <$> str_split "," (str_join ", " ks) = ks.
Proof.
  destruct ks as [|k ks]; [done|]. intros _ Hall.
  unfold str_split, str_join. rewrite list_ascii_of_string_of_list_ascii.
  change (list_ascii_of_string ", ") with ["," ; " "]%char.
  rewrite fmap_cons, split_join.
  - apply Forall_cons in Hall as [[_ Hk] Hall].
    rewrite !fmap_cons. f_equal; [by apply str_strip_plain|].
    rewrite <- !list_fmap_compose.
    induction Hall as [|k' ks [_ Hk'] _ IH]; [done|].
    rewrite fmap_cons. f_equal; [|done]. unfold compose.
    unfold str_strip. rewrite list_ascii_of_string_of_list_ascii.
    rewrite (strip_pad [" "%char]) by (by repeat constructor).
    by rewrite Hk', string_of_list_ascii_of_string.
  - rewrite <- fmap_cons. apply Forall_fmap.
    eapply Forall_impl; [done|]. by intros ? [? _].
  - by apply (bool_decide_unpack _).
Qed.

(** X14.  In an ASCII text a keyword is found exactly when its letters
    occur somewhere in the text, in any case and also inside a longer
    word. *)
Theorem found_skills_spec text skill :
  ascii_text text = true →
  (skill ∈ found_skills text ↔
   skill ∈ skill_keywords ∧
   ∃ pre mid post, text = pre +:+ mid +:+ post ∧ str_lower mid = skill).
Proof.
  intros _.
  unfold found_skills. rewrite list_elem_of_filter, str_contains_spec.
  split; intros [H Hin]; (split; [|done]) || (split; [done|]).
  - destruct H as (pre & post & H).
    apply str_lower_app_inv in H as (pre' & rest & -> & _ & H).
    apply str_lower_app_inv in H as (mid & post' & -> & Hmid & _).
    by exists pre', mid, post'.
  - destruct Hin as (pre & mid & post & -> & <-).
    exists (str_lower pre), (str_lower post). by rewrite !str_lower_app.
Qed.

Lemma found_skills_spec_witness :
  "go"%string ∈ found_skills "I like Django" ↔
  "go"%string ∈ skill_keywords ∧
  ∃ pre mid post,
    "I like Django"%string = pre +:+ mid +:+ post ∧ str_lower mid = "go"%string.
Proof.
  apply (found_skills_spec "I like Django" "go"). reflexivity.
Defined.

(** X15.  Splitting the result of [extract_skills] at its commas and
    stripping the parts, as [insert_candidate] does, gives the keywords
    found, or the one name [Not specified] when none was. *)
Theorem extract_skills_split text :
  str_strip <$> str_split "," (extract_skills text)
  = match found_skills text with
    | [] => ["Not specified"%string]
    | found => found
    end.
Proof.
  unfold extract_skills.
  destruct (found_skills text) as [|k ks] eqn:Hfound; [done|].
  apply str_split_join; [done|]. rewrite <- Hfound.
  apply found_skills_plain.
Qed.

(** X16.  [extract_skills] answers [Not specified] exactly when the text
    has none of the keywords. *)
Theorem extract_skills_not_specified text :
  extract_skills text = "Not specified"%string ↔
  ∀ skill, skill ∈ skill_keywords →
    str_contains (str_lower text) skill = false.
Proof.
  assert (found_skills text = [] ↔
          ∀ skill, skill ∈ skill_keywords →
            str_contains (str_lower text) skill = false) as <-.
  { split.
    - intros Hnil skill Hin.
      destruct (str_contains (str_lower text) skill) eqn:Hc; [|done].
      assert (skill ∈ found_skills text) as Hf
        by (by apply list_elem_of_filter).
      rewrite Hnil in Hf. by apply elem_of_nil in Hf.
    - intros Hnone. apply elem_of_nil_inv. intros skill Hf.
      apply list_elem_of_filter in Hf as [Hc Hin].
      by rewrite (Hnone skill Hin) in Hc. }
  split.
  - unfold extract_skills. intros H.
    destruct (found_skills text) as [|k ks] eqn:Hf; [done|].
    assert (k ∈ skill_keywords) as Hk.
    { apply (found_skills_keywords text). rewrite Hf. left. }
    pose proof (found_skills_plain text) as Hplain. rewrite Hf in Hplain.
    apply str_split_join in Hplain; [|done]. rewrite H in Hplain.
    injection Hplain as <- _. by apply (bool_decide_pack _) in Hk.
  - unfold extract_skills. by intros ->.
Qed.

End skills_facts.

(** ** The education lines of a text *)

Section education_facts.
Import Str StrFacts.

Lemma slice_elem_of {A} (l : list A) (start stop j : nat) x :
  l !! j = Some x → (start ≤ j < stop)%nat → x ∈ slice l start stop.
Proof.
  intros Hj [Hlo Hhi]. unfold slice. apply list_elem_of_lookup.
  exists (j - start)%nat. rewrite lookup_take_lt by lia.
  rewrite lookup_drop. by replace (start + (j - start))%nat with j by lia.
Qed.

(** What the loop collects for a line that has a keyword: the line before
    it, the line and the two lines after it. *)
Lemma education_loop_window (lines todo : list string) (i k j : nat) line x :
  drop i lines = todo →
  todo !! k = Some line → mentions_education line = true →
  lines !! j = Some x → (i + k - 1 ≤ j ≤ i + k + 2)%nat →
  x ∈ education_loop lines i todo.
Proof.
  revert i k. induction todo as [|l todo IH]; intros i k Hdrop Hk Hline Hj Hwin.
  { done. }
  cbn [education_loop]. apply elem_of_app. destruct k as [|k].
  - left. injection Hk as ->. rewrite Hline.
    apply (slice_elem_of _ _ _ j); [done|].
    apply lookup_lt_Some in Hj. lia.
  - right. apply (IH (S i) k); try done; [|lia].
    replace (S i) with (i + 1)%nat by lia.
    by rewrite <- drop_drop, Hdrop.
Qed.

Lemma education_loop_nil (lines todo : list string) (i : nat) :
  Forall (λ line, mentions_education line = false) todo →
  education_loop lines i todo = [].
Proof.
  intros Hall. revert i.
  induction Hall as [|line todo Hline _ IH]; intros i; [done|].
  cbn [education_loop]. by rewrite Hline, IH.
Qed.

Lemma join_elem_of sep (parts : list (list ascii)) part :
  part ∈ parts → ∃ pre post, join sep parts = pre ++ part ++ post.
Proof.
  induction parts as [|p parts IH]; intros Hin.
  { by apply elem_of_nil in Hin. }
  apply elem_of_cons in Hin as [->|Hin].
  - destruct parts as [|p' parts]; cbn [join].
    + exists [], []. by rewrite app_nil_r.
    + by exists [], (sep ++ join sep (p' :: parts)).
  - destruct (IH Hin) as (pre & post & Hjoin).
    destruct parts as [|p' parts]; [by apply elem_of_nil in Hin|].
    cbn [join]. cbn [join] in Hjoin. rewrite Hjoin.
    exists (p ++ sep ++ pre), post. by rewrite <- !app_assoc.
Qed.

Lemma str_join_contains sep (parts : list string) part :
  part ∈ parts → str_contains (str_join sep parts) part = true.
Proof.
  intros Hin. unfold str_contains, str_join.
  rewrite list_ascii_of_string_of_list_ascii. apply contains_spec.
  apply join_elem_of, list_elem_of_fmap. by exists part.
Qed.

Lemma str_app_assoc (a b c : string) : (a +:+ b) +:+ c = a +:+ (b +:+ c).
Proof.
  induction a as [|x a IH]; [done|].
  change (String x ((a +:+ b) +:+ c) = String x (a +:+ b +:+ c)).
  by f_equal.
Qed.

Lemma str_contains_trans a b c :
  str_contains a b = true → str_contains b c = true →
  str_contains a c = true.
Proof.
  rewrite !str_contains_spec.
  intros (pre & post & ->) (pre' & post' & ->).
  exists (pre +:+ pre'), (post' +:+ post).
  by rewrite !str_app_assoc.
Qed.

Lemma str_contains_lower a b :
  str_contains a b = true →
  str_contains (str_lower a) (str_lower b) = true.
Proof.
  rewrite !str_contains_spec. intros (pre & post & ->).
  exists (str_lower pre), (str_lower post). by rewrite !str_lower_app.
Qed.

Lemma mentions_education_contains text line :
  str_contains text line = true → mentions_education line = true →
  mentions_education text = true.
Proof.
  unfold mentions_education. rewrite !existsb_exists.
  intros Hin (keyword & Hkw & Hline). exists keyword. split; [done|].
  eapply str_contains_trans; [|exact Hline]. by apply str_contains_lower.
Qed.

(** The lines collected when line [i] has a keyword. *)
Lemma extract_education_found text (i : nat) line :
  str_split "010" text !! i = Some line →
  mentions_education line = true →
  line ∈ education_loop (str_split "010" text) 0 (str_split "010" text) ∧
  extract_education text
  = str_join " "
      (education_loop (str_split "010" text) 0 (str_split "010" text)).
Proof.
  intros Hi Hline.
  assert (line ∈ education_loop (str_split "010" text) 0
                   (str_split "010" text)) as Hin.
  { apply (education_loop_window _ _ 0 i i line); try done. lia. }
  split; [done|]. unfold extract_education. cbv zeta.
  destruct (education_loop _ _ _); [|done]. by apply elem_of_nil in Hin.
Qed.

(** X17.  [extract_education] answers [Not found] exactly when no line of
    the text has one of the education keywords in it, in any case. *)
Theorem extract_education_not_found text :
  extract_education text = "Not found"%string ↔
  ∀ line, line ∈ str_split "010" text → mentions_education line = false.
Proof.
  split.
  - intros Hnot line Hin.
    destruct (mentions_education line) eqn:Hline; [|done].
    apply list_elem_of_lookup in Hin as [i Hi].
    destruct (extract_education_found text i line Hi Hline) as [Hin Hjoin].
    apply (str_join_contains " ") in Hin. rewrite <- Hjoin, Hnot in Hin.
    by apply (mentions_education_contains "Not found") in Hin.
  - intros Hnone. unfold extract_education. cbv zeta.
    rewrite education_loop_nil; [done|].
    apply Forall_forall. exact Hnone.
Qed.

(** X18.  A line that has an education keyword is part of the result of
    [extract_education], and so are the line before it and the two lines
    after it. *)
Theorem extract_education_window text (i j : nat) line near :
  str_split "010" text !! i = Some line →
  mentions_education line = true →
  str_split "010" text !! j = Some near →
  (i - 1 ≤ j ≤ i + 2)%nat →
  str_contains (extract_education text) near = true.
Proof.
  intros Hi Hline Hj Hwin.
  destruct (extract_education_found text i line Hi Hline) as [_ ->].
  apply str_join_contains.
  by apply (education_loop_window _ _ 0 i j line).
Qed.

End education_facts.

Lemma extract_education_window_witness :
  str_contains
    (extract_education
       (String "010" "BSc in physics, Open University" +:+ String "010" "2011"))
    "2011" = true.
Proof.
  apply (extract_education_window _ 1 2 "BSc in physics, Open University");
    [reflexivity|reflexivity|reflexivity|lia].
Defined.

(** ** [insert_candidate] *)

Section database_facts.
Variable new_rowid : list Z → Z → Z.
Variable ignored_seq : list Z → Z → Z.

Local Abbreviation insert_skill := (insert_or_ignore_skill new_rowid ignored_seq).
Local Abbreviation link := (link_skills new_rowid ignored_seq).
Local Abbreviation insert := (insert_candidate new_rowid ignored_seq).
Local Abbreviation store := (store_cvs new_rowid ignored_seq).

Implicit Types (db : database) (cv : parsed_cv) (skill name : string).

(** *** The three statements of the loop *)

Lemma insert_skill_skills skill db :
  db_skills (insert_skill skill db)
  = db_skills db ++
    if bool_decide (skill ∈ (db_skills db).*2) then []
    else [(new_rowid (db_skills db).*1 (db_skills_seq db), skill)].
Proof.
  unfold insert_or_ignore_skill. case_bool_decide; simpl; [|done].
  by rewrite app_nil_r.
Qed.

Lemma insert_skill_others skill db :
  db_candidates (insert_skill skill db) = db_candidates db ∧
  db_candidates_seq (insert_skill skill db) = db_candidates_seq db ∧
  db_candidate_skills (insert_skill skill db) = db_candidate_skills db.
Proof. unfold insert_or_ignore_skill. by case_bool_decide. Qed.

Lemma insert_skill_elem_of skill db :
  skill ∈ (db_skills (insert_skill skill db)).*2.
Proof.
  rewrite insert_skill_skills, fmap_app, elem_of_app.
  case_bool_decide; [by left|right]. simpl. left.
Qed.

Lemma select_skill_id_Some skill db skill_id :
  select_skill_id skill db = Some skill_id → (skill_id, skill) ∈ db_skills db.
Proof.
  unfold select_skill_id. intros H.
  destruct (find _ _) as [[sid nm]|] eqn:Hfind; [|done].
  apply find_some in Hfind as [Hin Heq]. injection H as <-.
  apply bool_decide_eq_true in Heq. simpl in Heq. subst nm.
  by apply list_elem_of_In.
Qed.

Lemma select_skill_id_is_Some skill db :
  skill ∈ (db_skills db).*2 → is_Some (select_skill_id skill db).
Proof.
  intros Hin. unfold select_skill_id.
  destruct (find _ _) as [r|] eqn:Hfind; [done|].
  apply list_elem_of_fmap in Hin as ([sid nm] & -> & Hin).
  apply list_elem_of_In in Hin.
  apply (find_none _ _ Hfind) in Hin. by apply bool_decide_eq_false in Hin.
Qed.

Lemma insert_link_links candidate_id skill_id db :
  db_candidate_skills (insert_or_ignore_link candidate_id skill_id db)
  = db_candidate_skills db ++
    if bool_decide ((candidate_id, skill_id) ∈ db_candidate_skills db)
    then [] else [(candidate_id, skill_id)].
Proof.
  unfold insert_or_ignore_link. case_bool_decide; simpl; [|done].
  by rewrite app_nil_r.
Qed.

Lemma insert_link_others candidate_id skill_id db :
  db_candidates (insert_or_ignore_link candidate_id skill_id db)
  = db_candidates db ∧
  db_candidates_seq (insert_or_ignore_link candidate_id skill_id db)
  = db_candidates_seq db ∧
  db_skills (insert_or_ignore_link candidate_id skill_id db) = db_skills db.
Proof. unfold insert_or_ignore_link. by case_bool_decide. Qed.

Lemma insert_link_elem_of candidate_id skill_id db :
  (candidate_id, skill_id)
  ∈ db_candidate_skills (insert_or_ignore_link candidate_id skill_id db).
Proof.
  rewrite insert_link_links, elem_of_app.
  case_bool_decide; [by left|right]. left.
Qed.

(** The loop never finds [fetchone()] empty, and only appends. *)
Lemma link_skills_run candidate_id (skills_list : list string) db :
  ∃ db',
    link candidate_id skills_list db = inr db' ∧
    db_candidates db' = db_candidates db ∧
    db_candidates_seq db' = db_candidates_seq db ∧
    db_skills db `prefix_of` db_skills db' ∧
    db_candidate_skills db `prefix_of` db_candidate_skills db'.
Proof.
  revert db. induction skills_list as [|skill rest IH]; intros db.
  { by exists db. }
  cbn [link_skills].
  destruct (select_skill_id_is_Some skill (insert_skill skill db))
    as [skill_id Hsel]; [apply insert_skill_elem_of|].
  rewrite Hsel.
  destruct (IH (insert_or_ignore_link candidate_id skill_id
                  (insert_skill skill db)))
    as (db' & Hrun & Hc & Hs & Hsk & Hl).
  exists db'. split; [done|].
  destruct (insert_link_others candidate_id skill_id (insert_skill skill db))
    as (Hc1 & Hs1 & Hsk1).
  destruct (insert_skill_others skill db) as (Hc2 & Hs2 & Hl2).
  rewrite Hc, Hs, Hc1, Hs1, Hc2, Hs2. repeat split; try done.
  - etrans; [|exact Hsk]. rewrite Hsk1, insert_skill_skills.
    by apply prefix_app_r.
  - etrans; [|exact Hl]. rewrite insert_link_links, Hl2.
    by apply prefix_app_r.
Qed.

(** The three ways through [insert_candidate]. *)
Lemma insert_candidate_cases cv db :
  let candidate_id :=
    new_rowid (c_id <$> db_candidates db) (db_candidates_seq db) in
  let db1 :=
    Database (db_candidates db ++ [candidate_row candidate_id cv])
      candidate_id (db_skills db) (db_skills_seq db)
      (db_candidate_skills db) in
  let skills_list :=
    if bool_decide (cv_skills cv = EmptyString) then []
    else str_strip <$> str_split "," (cv_skills cv) in
  (sqlite_integer (cv_experience_years cv) = false ∧
   insert cv db = (db, inl OverflowError)) ∨
  (sqlite_integer (cv_experience_years cv) = true ∧
   email_taken (cv_email cv) db = true ∧
   insert cv db = (db, inr None)) ∨
  (sqlite_integer (cv_experience_years cv) = true ∧
   email_taken (cv_email cv) db = false ∧
   ∃ db', link candidate_id skills_list db1 = inr db' ∧
          insert cv db = (db', inr (Some candidate_id))).
Proof.
  intros cid db1 skills_list. unfold insert_candidate.
  destruct (sqlite_integer _); simpl; [right|by left].
  destruct (email_taken _ _); [by left|right]. do 2 (split; [done|]).
  unfold insert_row. fold cid. change (Candidate cid _ _ _ _ _ _ _)
    with (candidate_row cid cv). fold db1.
  destruct (link_skills_run cid skills_list db1) as (db' & Hrun & _).
  exists db'. split; [done|]. unfold skills_list in Hrun.
  case_bool_decide; [by injection Hrun as <-|]. by rewrite Hrun.
Qed.

Lemma email_taken_spec (email : option string) db :
  email_taken email db = true
  ↔ ∃ e, email = Some e ∧ Some e ∈ c_email <$> db_candidates db.
Proof.
  destruct email as [e|]; simpl.
  - rewrite bool_decide_eq_true. split; [by exists e|]. by intros (? & [= <-] & ?).
  - split; [done|]. by intros (? & ? & _).
Qed.

(** X19.  The one exception that escapes [insert_candidate] is the
    OverflowError of an [experience_years] beyond 64 bits, and it leaves the
    database as it was; [fetchone()] is never empty. *)
Theorem insert_candidate_raises cv db db' (e : escaped) :
  insert cv db = (db', inl e)
  ↔ e = OverflowError ∧ db' = db ∧
    sqlite_integer (cv_experience_years cv) = false.
Proof.
  destruct (insert_candidate_cases cv db)
    as [[Hint ->]|[(Hint & _ & ->)|(Hint & _ & db'' & _ & ->)]].
  - split; [by intros [= <- <-]|by intros (-> & -> & _)].
  - split; [done|]. intros (_ & _ & H). by rewrite H in Hint.
  - split; [done|]. intros (_ & _ & H). by rewrite H in Hint.
Qed.

(** X20.  [insert_candidate] returns [None] exactly for a CV whose email a
    stored candidate has already, and then the database is as it was. *)
Theorem insert_candidate_taken_email cv db db' :
  insert cv db = (db', inr None)
  ↔ db' = db ∧ sqlite_integer (cv_experience_years cv) = true ∧
    ∃ email, cv_email cv = Some email ∧
             Some email ∈ c_email <$> db_candidates db.
Proof.
  rewrite <- email_taken_spec.
  destruct (insert_candidate_cases cv db)
    as [[Hint ->]|[(Hint & Htaken & ->)|(Hint & Htaken & db'' & _ & ->)]].
  - split; [done|]. intros (_ & H & _). by rewrite H in Hint.
  - split; [by intros [= <-]|by intros (-> & _)].
  - split; [done|]. intros (_ & _ & H). by rewrite H in Htaken.
Qed.

(** *** The keys and the links *)

(** AUTOINCREMENT gives a row an id above every id of the table. *)
Hypothesis new_rowid_fresh :
  ∀ (ids : list Z) (seq i : Z), i ∈ ids → (i < new_rowid ids seq)%Z.

Lemma new_rowid_not_elem_of ids seq : new_rowid ids seq ∉ ids.
Proof. intros Hin. apply (new_rowid_fresh ids seq) in Hin. lia. Qed.

Lemma NoDup_snoc {A} (l : list A) x : NoDup l → x ∉ l → NoDup (l ++ [x]).
Proof.
  intros Hl Hx. apply NoDup_app. split; [done|]. split; [|apply NoDup_singleton].
  intros y Hy Hy'. apply list_elem_of_singleton in Hy'. by subst.
Qed.

Lemma NoDup_fst_agree {A B} (l : list (A * B)) k v v' :
  NoDup l.*1 → (k, v) ∈ l → (k, v') ∈ l → v = v'.
Proof.
  induction l as [|[k0 v0] l IH]; intros Hnd Hv Hv'.
  { by apply elem_of_nil in Hv. }
  rewrite fmap_cons in Hnd. apply NoDup_cons in Hnd as [Hk0 Hnd].
  apply elem_of_cons in Hv as [Hv|Hv];
    apply elem_of_cons in Hv' as [Hv'|Hv']; simplify_eq; try done.
  - destruct Hk0. apply list_elem_of_fmap. by exists (k0, v').
  - destruct Hk0. apply list_elem_of_fmap. by exists (k0, v).
  - by apply IH.
Qed.

Lemma consistent_insert_skill skill db :
  consistent db → consistent (insert_skill skill db).
Proof.
  intros [Hids Hemails Hsids Hnames Hlinks Hrefer].
  destruct (insert_skill_others skill db) as (Hc & _ & Hl).
  constructor; rewrite ?Hc, ?Hl, ?insert_skill_skills; try done.
  - case_bool_decide; [by rewrite app_nil_r|].
    rewrite fmap_app. apply NoDup_snoc; [done|]. apply new_rowid_not_elem_of.
  - case_bool_decide; [by rewrite app_nil_r|].
    rewrite fmap_app. by apply NoDup_snoc.
  - intros cid sid Hin. destruct (Hrefer cid sid Hin) as [? ?].
    split; [done|]. rewrite fmap_app, elem_of_app. by left.
Qed.

Lemma consistent_insert_link candidate_id skill_id db :
  consistent db →
  candidate_id ∈ c_id <$> db_candidates db →
  skill_id ∈ (db_skills db).*1 →
  consistent (insert_or_ignore_link candidate_id skill_id db).
Proof.
  intros [Hids Hemails Hsids Hnames Hlinks Hrefer] Hcid Hsid.
  destruct (insert_link_others candidate_id skill_id db) as (Hc & _ & Hs).
  constructor; rewrite ?Hc, ?Hs, ?insert_link_links; try done.
  - case_bool_decide; [by rewrite app_nil_r|]. by apply NoDup_snoc.
  - intros cid sid Hin. apply elem_of_app in Hin as [Hin|Hin].
    { by apply Hrefer. }
    case_bool_decide; [by apply elem_of_nil in Hin|].
    by apply list_elem_of_singleton in Hin as [= -> ->].
Qed.

Lemma linked_insert_skill skill db candidate_id name :
  consistent db →
  linked (insert_skill skill db) candidate_id name
  ↔ linked db candidate_id name.
Proof.
  intros Hok. unfold linked.
  destruct (insert_skill_others skill db) as (_ & _ & ->).
  rewrite insert_skill_skills. split; intros (sid & Hlink & Hskill).
  - exists sid. split; [done|].
    apply elem_of_app in Hskill as [?|Hnew]; [done|].
    case_bool_decide; [by apply elem_of_nil in Hnew|].
    apply list_elem_of_singleton in Hnew as [= -> ->].
    apply (links_refer _ Hok) in Hlink as [_ Hsid].
    by apply new_rowid_not_elem_of in Hsid.
  - exists sid. split; [done|]. apply elem_of_app. by left.
Qed.

Lemma linked_insert_link candidate_id skill_id skill db cid name :
  consistent db → (skill_id, skill) ∈ db_skills db →
  linked (insert_or_ignore_link candidate_id skill_id db) cid name
  ↔ linked db cid name ∨ (cid = candidate_id ∧ name = skill).
Proof.
  intros Hok Hskill. unfold linked.
  destruct (insert_link_others candidate_id skill_id db) as (_ & _ & ->).
  rewrite insert_link_links. split.
  - intros (sid & Hlink & Hname).
    apply elem_of_app in Hlink as [?|Hnew]; [left; by exists sid|].
    case_bool_decide; [by apply elem_of_nil in Hnew|].
    apply list_elem_of_singleton in Hnew as [= -> ->]. right. split; [done|].
    by apply (NoDup_fst_agree (db_skills db) skill_id);
      [apply (skill_ids_distinct _ Hok)| |].
  - intros [(sid & Hlink & Hname)|[-> ->]].
    + exists sid. split; [|done]. apply elem_of_app. by left.
    + exists skill_id. split; [|done]. apply elem_of_app.
      case_bool_decide; [by left|right; left].
Qed.

(** The loop keeps the keys, and links the candidate to the skills of the
    list and to nothing else. *)
Lemma link_skills_linked candidate_id (skills_list : list string) db db' :
  consistent db →
  candidate_id ∈ c_id <$> db_candidates db →
  link candidate_id skills_list db = inr db' →
  consistent db' ∧
  ∀ cid name,
    linked db' cid name
    ↔ linked db cid name ∨ (cid = candidate_id ∧ name ∈ skills_list).
Proof.
  revert db. induction skills_list as [|skill rest IH]; intros db Hok Hcid.
  { intros [= <-]. split; [done|]. intros cid name. split; [by left|].
    intros [?|[_ Hin]]; [done|]. by apply elem_of_nil in Hin. }
  cbn [link_skills].
  destruct (select_skill_id skill (insert_skill skill db))
    as [skill_id|] eqn:Hsel; [|done].
  apply select_skill_id_Some in Hsel.
  pose proof (consistent_insert_skill skill db Hok) as Hok1.
  destruct (insert_skill_others skill db) as (Hc1 & _ & _).
  assert (consistent (insert_or_ignore_link candidate_id skill_id
                        (insert_skill skill db))) as Hok2.
  { apply consistent_insert_link; [done|by rewrite Hc1|].
    apply list_elem_of_fmap. by exists (skill_id, skill). }
  intros Hrun. apply IH in Hrun as [Hok' Hlinked]; [|done|].
  - split; [done|]. intros cid name.
    rewrite Hlinked, (linked_insert_link _ _ skill) by done.
    rewrite linked_insert_skill by done. rewrite elem_of_cons. tauto.
  - destruct (insert_link_others candidate_id skill_id (insert_skill skill db))
      as (-> & _ & _).
    by rewrite Hc1.
Qed.

Lemma email_not_taken cv db :
  email_taken (cv_email cv) db = false →
  ∀ email, cv_email cv = Some email → email ∉ omap c_email (db_candidates db).
Proof.
  intros Hfree email Hemail Hin.
  apply list_elem_of_omap in Hin as (c & Hc & Hce).
  assert (email_taken (cv_email cv) db = true) as Htaken; [|congruence].
  apply email_taken_spec. exists email. split; [done|].
  apply list_elem_of_fmap. by exists c.
Qed.

(** The first INSERT keeps the keys when the email is free. *)
Lemma consistent_insert_row cv db :
  let candidate_id :=
    new_rowid (c_id <$> db_candidates db) (db_candidates_seq db) in
  consistent db → email_taken (cv_email cv) db = false →
  consistent
    (Database (db_candidates db ++ [candidate_row candidate_id cv])
       candidate_id (db_skills db) (db_skills_seq db)
       (db_candidate_skills db)).
Proof.
  intros cid [Hids Hemails Hsids Hnames Hlinks Hrefer] Hfree.
  constructor; simpl; try done.
  - rewrite fmap_app. apply NoDup_snoc; [done|]. apply new_rowid_not_elem_of.
  - rewrite omap_app. simpl.
    destruct (cv_email cv) as [email|] eqn:Hemail; simpl;
      [|by rewrite app_nil_r].
    apply NoDup_snoc; [done|].
    by apply (email_not_taken cv); [rewrite Hemail|].
  - intros c sid Hin. destruct (Hrefer c sid Hin) as [? ?].
    split; [|done]. rewrite fmap_app, elem_of_app. by left.
Qed.

(** What an insert that went through did. *)
Lemma insert_candidate_Some cv db db' candidate_id :
  insert cv db = (db', inr (Some candidate_id)) →
  let db1 :=
    Database (db_candidates db ++ [candidate_row candidate_id cv])
      candidate_id (db_skills db) (db_skills_seq db)
      (db_candidate_skills db) in
  candidate_id = new_rowid (c_id <$> db_candidates db) (db_candidates_seq db) ∧
  email_taken (cv_email cv) db = false ∧
  link candidate_id
    (if bool_decide (cv_skills cv = EmptyString) then []
     else str_strip <$> str_split "," (cv_skills cv)) db1 = inr db'.
Proof.
  destruct (insert_candidate_cases cv db)
    as [[_ ->]|[(_ & _ & ->)|(_ & Hfree & db'' & Hrun & ->)]]; try done.
  by intros [= <- <-].
Qed.

(** X21.  An insert that goes through appends: the candidate's row, under an
    id that no stored candidate has, comes after the rows there were, and
    the skills and links there were stay in front, unchanged. *)
Theorem insert_candidate_appends cv db db' candidate_id :
  insert cv db = (db', inr (Some candidate_id)) →
  db_candidates db' = db_candidates db ++ [candidate_row candidate_id cv] ∧
  (candidate_id ∉ c_id <$> db_candidates db) ∧
  db_skills db `prefix_of` db_skills db' ∧
  db_candidate_skills db `prefix_of` db_candidate_skills db'.
Proof.
  intros Hins. apply insert_candidate_Some in Hins as (Hid & _ & Hrun).
  match type of Hrun with link ?c ?l ?d = _ =>
    destruct (link_skills_run c l d) as (db'' & Hrun' & Hc & _ & Hs & Hl) end.
  rewrite Hrun in Hrun'. injection Hrun' as <-.
  split; [done|]. split; [|done]. rewrite Hid. apply new_rowid_not_elem_of.
Qed.

Lemma in_skills_list cv name :
  name ∈ (if bool_decide (cv_skills cv = EmptyString) then []
          else str_strip <$> str_split "," (cv_skills cv))
  ↔ cv_skills cv ≠ EmptyString ∧
    name ∈ str_strip <$> str_split "," (cv_skills cv).
Proof.
  case_bool_decide; [|tauto]. split; [|tauto].
  intros Hin. by apply elem_of_nil in Hin.
Qed.

(** An insert that went through, on consistent tables. *)
Lemma insert_candidate_linked cv db db' candidate_id :
  consistent db →
  insert cv db = (db', inr (Some candidate_id)) →
  consistent db' ∧
  (candidate_id ∉ c_id <$> db_candidates db) ∧
  ∀ cid name,
    linked db' cid name
    ↔ linked db cid name ∨
      (cid = candidate_id ∧
       name ∈ (if bool_decide (cv_skills cv = EmptyString) then []
               else str_strip <$> str_split "," (cv_skills cv))).
Proof.
  intros Hok Hins. apply insert_candidate_Some in Hins as (Hid & Hfree & Hrun).
  pose proof (consistent_insert_row cv db Hok Hfree) as Hok1.
  cbv zeta in Hok1. rewrite <- Hid in Hok1.
  apply link_skills_linked in Hrun as [Hok' Hlinked]; [|done|].
  - split; [done|]. split; [|done].
    rewrite Hid. apply new_rowid_not_elem_of.
  - simpl. rewrite fmap_app, elem_of_app. right. left.
Qed.

(** X22.  After an insert that goes through, the new candidate is linked to
    exactly the names between the commas of the CV's skills, stripped, and
    every other candidate to the skills it was linked to. *)
Theorem insert_candidate_links cv db db' candidate_id :
  consistent db →
  insert cv db = (db', inr (Some candidate_id)) →
  ∀ cid name,
    linked db' cid name
    ↔ if decide (cid = candidate_id)
      then cv_skills cv ≠ EmptyString ∧
           name ∈ str_strip <$> str_split "," (cv_skills cv)
      else linked db cid name.
Proof.
  intros Hok Hins cid name.
  destruct (insert_candidate_linked cv db db' candidate_id Hok Hins)
    as (_ & Hfresh & ->).
  rewrite in_skills_list. destruct (decide (cid = candidate_id)) as [->|Hne].
  - split; [|by right]. intros [(sid & Hlink & _)|[_ ?]]; [|done].
    by apply (links_refer _ Hok) in Hlink as [? _].
  - split; [|by left]. by intros [?|[? _]].
Qed.

(** X23.  [insert_candidate] keeps the tables consistent: ids, emails, skill
    ids and skill names stay distinct, no link is doubled, and every link
    goes from a stored candidate to a stored skill. *)
Theorem insert_candidate_consistent cv db :
  consistent db → consistent (insert cv db).1.
Proof.
  intros Hok.
  destruct (insert_candidate_cases cv db)
    as [[_ ->]|[(_ & _ & ->)|(_ & _ & db' & _ & Hins)]]; try done.
  rewrite Hins. by eapply insert_candidate_linked.
Qed.

End database_facts.

(** ** From parsed CVs to a ranking *)

Section pipeline_facts.
Variable new_rowid : list Z → Z → Z.
Variable ignored_seq : list Z → Z → Z.
Hypothesis new_rowid_fresh :
  ∀ (ids : list Z) (seq i : Z), i ∈ ids → (i < new_rowid ids seq)%Z.

Local Abbreviation insert := (insert_candidate new_rowid ignored_seq).
Local Abbreviation store := (store_cvs new_rowid ignored_seq).

Implicit Types (db : database) (cv : parsed_cv).

(** The list of skills that [insert_candidate] takes out of what
    [extract_skills] returns. *)
Lemma skills_list_extract_skills text :
  (if bool_decide (extract_skills text = EmptyString) then []
   else str_strip <$> str_split "," (extract_skills text))
  = match found_skills text with
    | [] => ["Not specified"%string]
    | found => found
    end.
Proof.
  unfold extract_skills.
  destruct (found_skills text) as [|k ks] eqn:Hfound; [done|].
  pose proof (found_skills_plain text) as Hplain. rewrite Hfound in Hplain.
  apply str_split_join in Hplain; [|done].
  case_bool_decide as Hempty; [|done].
  rewrite Hempty in Hplain. injection Hplain as <- _.
  assert (EmptyString ∈ skill_keywords) as Hin.
  { apply (found_skills_keywords text). rewrite Hfound. left. }
  by apply (bool_decide_pack _) in Hin.
Qed.

Section parsed.
Variable extract_name : string → string.
Variable extract_email extract_phone : string → option string.
Variable extract_experience_years : string → Z.

Local Abbreviation parse :=
  (parse_cv extract_name extract_email extract_phone
     extract_experience_years).

(** X24.  A CV that is parsed and then inserted is linked to exactly the
    keywords found in its text, and to the skill [Not specified] when none
    was found. *)
Theorem insert_parsed_cv_links text category db db' candidate_id :
  consistent db →
  insert (parse text category) db = (db', inr (Some candidate_id)) →
  ∀ name,
    linked db' candidate_id name
    ↔ name ∈ match found_skills text with
             | [] => ["Not specified"%string]
             | found => found
             end.
Proof.
  intros Hok Hins name.
  destruct (insert_candidate_linked new_rowid ignored_seq new_rowid_fresh
              _ _ _ _ Hok Hins) as (_ & Hfresh & ->).
  cbn [parse_cv cv_skills]. rewrite skills_list_extract_skills.
  split; [|by right]. intros [(sid & Hlink & _)|[_ ?]]; [|done].
  by apply (links_refer _ Hok) in Hlink as [? _].
Qed.

End parsed.

(** The loop over CVs whose integers fit. *)
Lemma store_cvs_run (cvs : list parsed_cv) db :
  Forall (λ cv, sqlite_integer (cv_experience_years cv) = true) cvs →
  ∃ db',
    store cvs db = (db', inr ()) ∧
    db_candidates db `prefix_of` db_candidates db' ∧
    (consistent db → consistent db').
Proof.
  intros Hfit. revert db.
  induction Hfit as [|cv cvs Hcv _ IH]; intros db; [by exists db|].
  cbn [store_cvs].
  destruct (insert_candidate_cases new_rowid ignored_seq cv db)
    as [[Hint _]|[(_ & _ & ->)|(_ & _ & db1 & Hrun & Hins)]].
  - by rewrite Hint in Hcv.
  - apply IH.
  - rewrite Hins. destruct (IH db1) as (db' & Hstore & Hpre & Hok').
    exists db'. split; [done|]. split.
    + etrans; [|exact Hpre].
      match type of Hrun with link_skills _ _ ?c ?l ?d = _ =>
        destruct (link_skills_run new_rowid ignored_seq c l d)
          as (db'' & Hrun' & Hc & _) end.
      rewrite Hrun in Hrun'. injection Hrun' as <-. rewrite Hc. simpl.
      by apply prefix_app_r.
    + intros Hok. apply Hok'.
      by eapply (insert_candidate_linked new_rowid ignored_seq
                   new_rowid_fresh cv db).
Qed.

(** X25.  CVs whose emails are distinct, and new to the table, are all
    stored by the loop of [pipeline_process_cvs], one row each, in the order
    of the list and after the rows there were. *)
Theorem store_cvs_distinct_emails (cvs : list parsed_cv) db :
  Forall (λ cv, sqlite_integer (cv_experience_years cv) = true) cvs →
  NoDup (omap cv_email cvs) →
  (∀ email, email ∈ omap cv_email cvs →
            Some email ∉ c_email <$> db_candidates db) →
  ∃ db' ids,
    store cvs db = (db', inr ()) ∧
    length ids = length cvs ∧
    db_candidates db' = db_candidates db ++ zip_with candidate_row ids cvs.
Proof.
  intros Hfit. revert db.
  induction Hfit as [|cv cvs Hcv _ IH]; intros db Hnd Hnew.
  { exists db, []. by rewrite app_nil_r. }
  cbn [store_cvs].
  destruct (insert_candidate_cases new_rowid ignored_seq cv db)
    as [[Hint _]|[(_ & Htaken & _)|(_ & Hfree & db1 & Hrun & Hins)]].
  - by rewrite Hint in Hcv.
  - apply email_taken_spec in Htaken as (email & Hemail & Hin).
    destruct (Hnew email); [|done]. simpl. rewrite Hemail. left.
  - rewrite Hins.
    match type of Hrun with link_skills _ _ ?c ?l ?d = _ =>
      destruct (link_skills_run new_rowid ignored_seq c l d)
        as (db'' & Hrun' & Hc & _);
      set (candidate_id := c) in * end.
    rewrite Hrun in Hrun'. injection Hrun' as <-. simpl in Hc.
    destruct (IH db1) as (db' & ids & Hstore & Hlen & Hrows).
    + simpl in Hnd. destruct (cv_email cv); [|done].
      by apply NoDup_cons in Hnd as [_ ?].
    + intros email Hin. rewrite Hc, fmap_app, not_elem_of_app. split.
      * apply Hnew. simpl. destruct (cv_email cv); [by right|done].
      * simpl. intros Heq. apply list_elem_of_singleton in Heq.
        simpl in Hnd. rewrite <- Heq in Hnd.
        by apply NoDup_cons in Hnd as [? _].
    + exists db', (candidate_id :: ids). split; [done|].
      split; [by simpl; rewrite Hlen|].
      by rewrite Hrows, Hc, <- app_assoc.
Qed.

Section ranked.
Context {Vec : Type}.
Variable encode : string → Vec.
Variable cosine_similarity : Vec → Vec → Q.

(** X26.  [pipeline_process_cvs] ends without an exception on CVs whose
    integers fit, and keeps the rows there were; a ranking that follows it
    holds every stored candidate exactly once, scored by the cosine of the
    encoded query and the candidate's encoded full text. *)
Theorem pipeline_then_rank model (cvs : list parsed_cv) db (w : world Vec) q :
  consistent db →
  Forall (λ cv, sqlite_integer (cv_experience_years cv) = true) cvs →
  ∃ db' run,
    pipeline_process_cvs new_rowid ignored_seq encode model cvs db w
    = (db', inr run) ∧
    db_candidates db `prefix_of` db_candidates db' ∧
    (db_candidates db' ≠ [] →
     ∃ t w' t' res,
       run = (t, inr w') ∧
       rank_candidates encode cosine_similarity w' q = (t', inr res) ∧
       res ≡ₚ (λ c, (c_id c, c_name c,
                     cosine_similarity (encode q) (encode (c_full_text c))))
              <$> db_candidates db').
Proof.
  intros Hok Hfit.
  destruct (store_cvs_run cvs db Hfit) as (db' & Hstore & Hpre & Hok').
  specialize (Hok' Hok). unfold pipeline_process_cvs. rewrite Hstore.
  eexists _, _. split; [done|]. split; [done|]. intros Hne.
  set (wc := on_tables db' w).
  assert (candidates wc ≠ []) as Hrows.
  { unfold wc, on_tables, candidate_rows. simpl.
    intros H. by apply fmap_nil_inv in H. }
  assert (NoDup (candidate_ids wc)) as Hnd.
  { unfold candidate_ids, wc, on_tables, candidate_rows. simpl.
    rewrite <- list_fmap_compose. apply (ids_distinct _ Hok'). }
  destruct (rank_after_precompute encode cosine_similarity model wc q Hrows Hnd)
    as (res & Hrank & Hperm).
  eexists _, _, _, res.
  split; [by apply precompute_all_embeddings_run|]. split; [done|].
  rewrite Hperm. unfold wc, on_tables, candidate_rows. simpl.
  by rewrite <- list_fmap_compose.
Qed.

End ranked.
End pipeline_facts.

(** ** The example tables *)

Lemma sample_new_rowid_fresh (ids : list Z) (seq i : Z) :
  i ∈ ids → (i < SampleDb.new_rowid ids seq)%Z.
Proof.
  unfold SampleDb.new_rowid. induction 1 as [i ids|i j ids _ IH]; simpl; lia.
Qed.

Lemma sample_consistent_created : consistent SampleDb.created.
Proof.
  constructor; simpl; try apply NoDup_nil_2.
  intros ? ? H. by apply elem_of_nil in H.
Qed.

Lemma sample_consistent_with_ada : consistent SampleDb.with_ada.
Proof.
  constructor; simpl; try (by apply (bool_decide_unpack _)).
  intros cid sid H.
  apply elem_of_cons in H as [[= -> ->]|H];
    [by split; apply (bool_decide_unpack _)|].
  apply elem_of_cons in H as [[= -> ->]|H];
    [by split; apply (bool_decide_unpack _)|].
  by apply elem_of_nil in H.
Qed.

Lemma insert_candidate_appends_witness :
  db_candidates SampleDb.with_ada
  = db_candidates SampleDb.created ++ [candidate_row 1 SampleDb.ada] ∧
  (1%Z ∉ c_id <$> db_candidates SampleDb.created) ∧
  db_skills SampleDb.created `prefix_of` db_skills SampleDb.with_ada ∧
  db_candidate_skills SampleDb.created
    `prefix_of` db_candidate_skills SampleDb.with_ada.
Proof.
  apply (insert_candidate_appends SampleDb.new_rowid SampleDb.ignored_seq
           sample_new_rowid_fresh SampleDb.ada SampleDb.created
           SampleDb.with_ada 1).
  reflexivity.
Defined.

Lemma insert_candidate_links_witness :
  linked SampleDb.with_ada 1 "sql"
  ↔ if decide (1%Z = 1%Z)
    then cv_skills SampleDb.ada ≠ EmptyString ∧
         "sql"%string ∈ str_strip <$> str_split "," (cv_skills SampleDb.ada)
    else linked SampleDb.created 1 "sql".
Proof.
  apply (insert_candidate_links SampleDb.new_rowid SampleDb.ignored_seq
           sample_new_rowid_fresh SampleDb.ada SampleDb.created
           SampleDb.with_ada 1).
  - exact sample_consistent_created.
  - reflexivity.
Defined.

Lemma insert_candidate_consistent_witness :
  consistent (SampleDb.insert SampleDb.bob SampleDb.with_ada).1.
Proof.
  apply (insert_candidate_consistent SampleDb.new_rowid SampleDb.ignored_seq
           sample_new_rowid_fresh SampleDb.bob SampleDb.with_ada).
  exact sample_consistent_with_ada.
Defined.

Lemma insert_parsed_cv_links_witness :
  ∃ db',
    SampleDb.insert (SampleDb.parse "I like Django" None) SampleDb.with_ada
    = (db', inr (Some 2%Z)) ∧
    ∀ name, linked db' 2 name ↔ name ∈ ["go"%string].
Proof.
  eexists. split; [reflexivity|].
  apply (insert_parsed_cv_links SampleDb.new_rowid SampleDb.ignored_seq
           sample_new_rowid_fresh (λ _, "Unknown"%string) (λ _, None)
           (λ _, None) (λ _, 0%Z)
           "I like Django" None SampleDb.with_ada).
  - exact sample_consistent_with_ada.
  - reflexivity.
Defined.

Lemma store_cvs_distinct_emails_witness :
  ∃ db' ids,
    store_cvs SampleDb.new_rowid SampleDb.ignored_seq
      [SampleDb.ada; SampleDb.bob] SampleDb.created = (db', inr ()) ∧
    length ids = 2%nat ∧
    db_candidates db'
    = db_candidates SampleDb.created
      ++ zip_with candidate_row ids [SampleDb.ada; SampleDb.bob].
Proof.
  apply (store_cvs_distinct_emails SampleDb.new_rowid SampleDb.ignored_seq
           [SampleDb.ada; SampleDb.bob] SampleDb.created).
  - by repeat constructor.
  - simpl. apply NoDup_singleton.
  - intros email _ H. by apply elem_of_nil in H.
Defined.

Lemma pipeline_then_rank_witness :
  ∃ db' run,
    pipeline_process_cvs SampleDb.new_rowid SampleDb.ignored_seq
      Example.stub_encode Example.model_name
      [SampleDb.ada; SampleDb.eve; SampleDb.bob] SampleDb.created Sample.empty
    = (db', inr run) ∧
    db_candidates SampleDb.created `prefix_of` db_candidates db' ∧
    (db_candidates db' ≠ [] →
     ∃ t w' t' res,
       run = (t, inr w') ∧
       Example.rank w' Example.job = (t', inr res) ∧
       res ≡ₚ (λ c, (c_id c, c_name c,
                     Example.stub_cosine (Example.stub_encode Example.job)
                       (Example.stub_encode (c_full_text c))))
              <$> db_candidates db').
Proof.
  apply (pipeline_then_rank SampleDb.new_rowid SampleDb.ignored_seq
           sample_new_rowid_fresh Example.stub_encode Example.stub_cosine
           Example.model_name [SampleDb.ada; SampleDb.eve; SampleDb.bob]
           SampleDb.created Sample.empty Example.job).
  - exact sample_consistent_created.
  - by repeat constructor.
Defined.

(** ** The demo *)

Section demo_facts.
Variable new_rowid : list Z → Z → Z.
Variable ignored_seq : list Z → Z → Z.
Hypothesis new_rowid_fresh :
  ∀ (ids : list Z) (seq i : Z), i ∈ ids → (i < new_rowid ids seq)%Z.
Variable extract_name : string → string.
Variable extract_email extract_phone : string → option string.
Variable extract_experience_years : string → Z.
Context {Vec : Type}.
Variable encode : string → Vec.
Variable cosine_similarity : Vec → Vec → Q.
Variable model_name : string.

Local Abbreviation process :=
  (process_single_cv new_rowid ignored_seq extract_name extract_email
     extract_phone extract_experience_years encode model_name).

Lemma ranked_ids_loaded (w : world Vec) q cid :
  cid ∈ (value (rank_candidates encode cosine_similarity w q)).*1.*1 →
  cid ∈ (loaded w).*1.
Proof.
  rewrite value_rank_candidates, sort_reverse_perm.
  apply sublist_subseteq, score_loop_ids.
Qed.

Lemma hybrid_ranked_ids (w : world Vec) q sw kw cid :
  cid ∈ (value (hybrid_rank encode cosine_similarity w q sw kw)).*1.*1.*1.*1 →
  cid ∈ (value (rank_candidates encode cosine_similarity w q)).*1.*1.
Proof.
  destruct (Qlt_le_dec 0.01 (Qabs (sw + kw - 1.0))) as [Hw|Hw].
  { unfold value at 1. rewrite hybrid_rank_invalid by done.
    intros H. by apply elem_of_nil in H. }
  rewrite hybrid_ids, value_hybrid_rank, sort_reverse_perm by done.
  apply sublist_subseteq. do 2 apply fmap_sublist.
  apply hybrid_tuples_semantic.
Qed.

(** X27.  A CV that [process_single_cv] reports as processed is in the
    candidate table and its vector in the table [cv_embeddings], yet no
    ranking lists it: the archive that the rankers read is as it was. *)
Theorem process_single_cv_not_ranked cv_text db (w : world Vec) db' t w'
    candidate_id q :
  (loaded w).*1 ⊆ c_id <$> db_candidates db →
  process cv_text db w = (db', (t, inr (w', Processed candidate_id))) →
  candidate_id ∈ candidate_ids w' ∧
  cv_embeddings w' !! candidate_id = Some (encode cv_text, model_name) ∧
  (candidate_id
     ∉ (value (rank_candidates encode cosine_similarity w' q)).*1.*1) ∧
  ∀ sw kw,
    candidate_id
    ∉ (value (hybrid_rank encode cosine_similarity w' q sw kw)).*1.*1.*1.*1.
Proof.
  intros Hfile. unfold process_single_cv.
  case_bool_decide; [done|].
  destruct (insert_candidate _ _ _ db) as [db1 [e|[cid|]]] eqn:Hins;
    try done.
  destruct (cid =? 0)%Z; [done|].
  unfold generate_embedding, perform, bind, ret. intros [= <- <- <- <-].
  apply insert_candidate_Some in Hins as (Hid & _ & Hrun).
  match type of Hrun with link_skills _ _ ?c ?l ?d = _ =>
    destruct (link_skills_run new_rowid ignored_seq c l d)
      as (db'' & Hrun' & Hc & _) end.
  rewrite Hrun in Hrun'. injection Hrun' as <-. simpl in Hc.
  assert (cid ∉ (loaded (store_embedding cid (encode cv_text) model_name
                           (on_tables db1 w))).*1) as Hnot.
  { intros Hin. apply Hfile in Hin. rewrite Hid in Hin.
    by apply (new_rowid_not_elem_of new_rowid new_rowid_fresh) in Hin. }
  split_and!.
  - unfold candidate_ids, store_embedding, on_tables, candidate_rows. simpl.
    rewrite <- list_fmap_compose, Hc, fmap_app, elem_of_app. right. left.
  - unfold store_embedding. simpl. apply lookup_insert_eq.
  - intros Hin. by apply ranked_ids_loaded in Hin.
  - intros sw kw Hin. by apply hybrid_ranked_ids, ranked_ids_loaded in Hin.
Qed.

End demo_facts.

Lemma process_single_cv_not_ranked_witness :
  ∃ db' t w',
    SampleDb.process "I like Django" SampleDb.with_ada Example.opposite
    = (db', (t, inr (w', Processed 2))) ∧
    2%Z ∈ candidate_ids w' ∧
    (2%Z ∉ (value (Example.rank w' Example.job)).*1.*1).
Proof.
  assert ((loaded Example.opposite).*1
          ⊆ c_id <$> db_candidates SampleDb.with_ada) as Hfile.
  { intros cid Hcid. vm_compute in Hcid |- *. done. }
  eexists _, _, _. split; [reflexivity|].
  edestruct (λ db' t w', process_single_cv_not_ranked SampleDb.new_rowid
              SampleDb.ignored_seq sample_new_rowid_fresh
              (λ _, "Unknown"%string) (λ _, None) (λ _, None) (λ _, 0%Z)
              Example.stub_encode Example.stub_cosine Example.model_name
              "I like Django" SampleDb.with_ada Example.opposite
              db' t w' 2%Z Example.job Hfile)
    as (Hin & _ & Hnot & _); [reflexivity|].
  split; [exact Hin|exact Hnot].
Defined.
